(** * utils.py: prompt evaluation helpers, embedded and verified

    The Python module [utils.py] sends prompts to model endpoints, validates
    template variables, and scores answers either by exact match or through
    an LLM judge.  This development embeds its functions one by one and
    proves what the specification says about them.

    Conventions of the embedding:
    - a Python [str] is a [string]; a character is the code point of the
      same number, so the strings covered are those of code points below
      256, and the character tables below are Python's on that range;
    - a Python [float] is an IEEE 754 binary64 value, [spec_float] with
      [prec = 53] and [emax = 1024];
    - a Python object that travels through JSON is a [pyval];
    - a call that may raise returns in [result]; code that also prints or
      talks to the network runs in the monad [M] over the interpreter
      state. *)

From Stdlib Require Import ZArith Ascii String List Bool Lia.
From Stdlib Require Import Floats.SpecFloat.
From stdpp Require Import base option list gmap strings.

Local Open Scope string_scope.
Local Open Scope list_scope.

#[local] Set Warnings "-clear-no-such-hyp".

(** ** Characters *)

Definition code (c : ascii) : nat := nat_of_ascii c.

(** [\d] of [re] on a [str] pattern: a decimal digit. *)
Definition is_digit (c : ascii) : bool :=
  (48 <=? code c)%nat && (code c <=? 57)%nat.

(** [str.isspace] for one character; the set [str.strip()] removes. *)
Definition is_space (c : ascii) : bool :=
  ((9 <=? code c)%nat && (code c <=? 13)%nat)
  || ((28 <=? code c)%nat && (code c <=? 32)%nat)
  || (code c =? 133)%nat || (code c =? 160)%nat.

(** [str.lower] for one character: A-Z, and the upper-case letters of
    the Latin-1 block (all of 192..222 but the multiplication sign). *)
Definition is_upper (c : ascii) : bool :=
  ((65 <=? code c)%nat && (code c <=? 90)%nat)
  || ((192 <=? code c)%nat && (code c <=? 222)%nat && negb (code c =? 215)%nat).

Definition lower_char (c : ascii) : ascii :=
  if is_upper c then ascii_of_nat (code c + 32) else c.

(** ** [str] methods *)

Fixpoint lower (s : string) : string :=
  match s with
  | EmptyString => EmptyString
  | String c s' => String (lower_char c) (lower s')
  end.

Fixpoint rev_string (acc s : string) : string :=
  match s with
  | EmptyString => acc
  | String c s' => rev_string (String c acc) s'
  end.

Fixpoint lstrip (s : string) : string :=
  match s with
  | EmptyString => EmptyString
  | String c s' => if is_space c then lstrip s' else s
  end.

Definition rstrip (s : string) : string :=
  rev_string "" (lstrip (rev_string "" s)).

(** [s.strip()]: white space removed at both ends. *)
Definition strip (s : string) : string := rstrip (lstrip s).

(** [s.startswith(p)]. *)
Fixpoint startswith (p s : string) : bool :=
  match p, s with
  | EmptyString, _ => true
  | String a p', String b s' => Ascii.eqb a b && startswith p' s'
  | String _ _, EmptyString => false
  end.

Fixpoint drop (n : nat) (s : string) : string :=
  match n, s with
  | O, _ => s
  | S n', String _ s' => drop n' s'
  | S _, EmptyString => EmptyString
  end.

(** [sub in s]. *)
Fixpoint contains (sub s : string) : bool :=
  startswith sub s ||
  match s with
  | EmptyString => false
  | String _ s' => contains sub s'
  end.

(** [s.partition(sep)] when [sep] occurs: the text before its first
    occurrence and the text after it. *)
Fixpoint partition (sep s : string) : option (string * string) :=
  if startswith sep s then Some ("", drop (String.length sep) s)
  else match s with
       | EmptyString => None
       | String c s' =>
           match partition sep s' with
           | Some (b, a) => Some (String c b, a)
           | None => None
           end
       end.

Fixpoint split_from (fuel : nat) (sep s : string) : list string :=
  match fuel with
  | O => [s]
  | S fuel' =>
      match partition sep s with
      | None => [s]
      | Some (b, a) => b :: split_from fuel' sep a
      end
  end.


Fixpoint replace_from (fuel : nat) (old new s : string) : string :=
  match fuel with
  | O => s
  | S fuel' =>
      match partition old s with
      | None => s
      | Some (b, a) => b +:+ new +:+ replace_from fuel' old new a
      end
  end.

Fixpoint interleave (new s : string) : string :=
  match s with
  | EmptyString => EmptyString
  | String c s' => String c (new +:+ interleave new s')
  end.

(** [s.replace(old, new)]: every occurrence of [old], left to right and
    without overlap; an empty [old] matches between all characters. *)
Definition replace (old new s : string) : string :=
  match old with
  | EmptyString => new +:+ interleave new s
  | String _ _ => replace_from (String.length s) old new s
  end.


(** ** The pattern of the score extractor

    [re.findall(r"\d+(?:\.\d+)?", s)]: the pattern is tried at every
    position from the left; [\d+] is greedy, and the optional group takes
    a dot only when a digit follows it. *)

Fixpoint span_digits (s : string) : string * string :=
  match s with
  | EmptyString => ("", "")
  | String c s' =>
      if is_digit c
      then let '(d, r) := span_digits s' in (String c d, r)
      else ("", s)
  end.

(** The optional group [(?:\.\d+)?] at the start of [r]: the digits after
    the dot and what follows them, when there is a dot and a digit. *)
Definition frac_part (r : string) : option (string * string) :=
  match r with
  | EmptyString => None
  | String c r' =>
      if Ascii.eqb c "."
      then match span_digits r' with
           | (EmptyString, _) => None
           | (fp, r'') => Some (fp, r'')
           end
      else None
  end.

(** The pattern at the start of [s]: the text matched and what follows. *)
Definition match_number (s : string) : option (string * string) :=
  match span_digits s with
  | (EmptyString, _) => None
  | (ip, r) =>
      match frac_part r with
      | Some (fp, r'') => Some (ip +:+ String "." fp, r'')
      | None => Some (ip, r)
      end
  end.

Fixpoint findall_from (fuel : nat) (s : string) : list string :=
  match fuel with
  | O => []
  | S fuel' =>
      match s with
      | EmptyString => []
      | String _ s' =>
          match match_number s with
          | Some (m, r) => m :: findall_from fuel' r
          | None => findall_from fuel' s'
          end
      end
  end.

Definition findall (s : string) : list string :=
  findall_from (String.length s) s.

(** ** Floats: IEEE 754 binary64 *)

Definition prec : Z := 53.
Definition emax : Z := 1024.

Definition fdiv : spec_float -> spec_float -> spec_float := SFdiv prec emax.

(** The quotient [n / d] of two integers, [0 <= n] and [0 < d], rounded to
    the nearest binary64 value, ties to even; too large a quotient gives
    [inf]. *)
Definition float_of_ratio (n d : Z) : spec_float :=
  match n with
  | Z0 => S754_zero false
  | _ =>
      let '(q, e, l) := SFdiv_core_binary prec emax n 0 d 0 in
      binary_round_aux prec emax false q e l
  end.

Fixpoint digits_value (acc : Z) (s : string) : Z :=
  match s with
  | EmptyString => acc
  | String c s' => digits_value (10 * acc + Z.of_nat (code c - 48)) s'
  end.

(** A plain decimal, [digits] or [digits.digits], as a fraction. *)
Definition parse_decimal (s : string) : option (Z * Z) :=
  match span_digits s with
  | (EmptyString, _) => None
  | (ip, EmptyString) => Some (digits_value 0 ip, 1%Z)
  | (ip, r) =>
      match frac_part r with
      | Some (fp, EmptyString) =>
          Some (digits_value 0 (ip +:+ fp), (10 ^ Z.of_nat (String.length fp))%Z)
      | _ => None
      end
  end.

(** A float literal of the source, such as [4.0]. *)
Definition lit (s : string) : spec_float :=
  match parse_decimal s with
  | Some (n, d) => float_of_ratio n d
  | None => S754_nan
  end.

(** [min(a, b)] and [max(a, b)] of Python on two floats: the first
    argument stays unless the second is strictly smaller (larger). *)
Definition py_min (a b : spec_float) : spec_float := if SFltb b a then b else a.
Definition py_max (a b : spec_float) : spec_float := if SFltb a b then b else a.

(** ** Exceptions *)

(** The classes below [Exception]; an exception is an instance of one of
    them.  What derives from [BaseException] only (a cancellation, an
    interpreter exit) is not an error of the program and is not modelled. *)
Inductive pyclass : Type :=
  | Exception
  | Subclass (name : string) (base : pyclass).

Definition ValueError : pyclass := Subclass "ValueError" Exception.
Definition JSONDecodeError : pyclass := Subclass "JSONDecodeError" ValueError.
Definition LookupError : pyclass := Subclass "LookupError" Exception.
Definition IndexError : pyclass := Subclass "IndexError" LookupError.
Definition KeyError : pyclass := Subclass "KeyError" LookupError.
Definition TypeError : pyclass := Subclass "TypeError" Exception.
Definition AttributeError : pyclass := Subclass "AttributeError" Exception.
Definition ClientError : pyclass := Subclass "ClientError" Exception.
Definition TemplateSyntaxError : pyclass := Subclass "TemplateSyntaxError" Exception.

Fixpoint pyclass_eqb (c d : pyclass) : bool :=
  match c, d with
  | Exception, Exception => true
  | Subclass n b, Subclass n' b' => String.eqb n n' && pyclass_eqb b b'
  | _, _ => false
  end.

Fixpoint issubclass (c d : pyclass) : bool :=
  pyclass_eqb c d ||
  match c with
  | Exception => false
  | Subclass _ b => issubclass b d
  end.

(** An exception: its class and [str(e)]. *)
Record exn : Type := mk_exn { exn_class : pyclass; exn_str : string }.

Definition isinstance (e : exn) (c : pyclass) : bool := issubclass (exn_class e) c.

Inductive result (A : Type) : Type :=
  | Ok (a : A)
  | Raise (e : exn).
Arguments Ok {A} a.
Arguments Raise {A} e.

(** ** Python values *)

#[warnings="-register-all"]
Inductive pyval : Type :=
  | PNone
  | PBool (b : bool)
  | PInt (z : Z)
  | PFloat (f : spec_float)
  | PStr (s : string)
  | PList (l : list pyval)
  | PDict (d : gmap string pyval).

Definition type_name (v : pyval) : string :=
  match v with
  | PNone => "NoneType"
  | PBool _ => "bool"
  | PInt _ => "int"
  | PFloat _ => "float"
  | PStr _ => "str"
  | PList _ => "list"
  | PDict _ => "dict"
  end.

(** [repr] of a dictionary key that holds no quote, backslash or control
    character, as the two keys the module looks up. *)
Definition repr_key (k : string) : string := "'" +:+ k +:+ "'".

(** [v[k]] for a string key [k]. *)
Definition getitem (v : pyval) (k : string) : result pyval :=
  match v with
  | PDict d =>
      match d !! k with
      | Some x => Ok x
      | None => Raise (mk_exn KeyError (repr_key k))
      end
  | PList _ =>
      Raise (mk_exn TypeError "list indices must be integers or slices, not str")
  | PStr _ =>
      Raise (mk_exn TypeError "string indices must be integers, not 'str'")
  | _ =>
      Raise (mk_exn TypeError ("'" +:+ type_name v +:+ "' object is not subscriptable"))
  end.

(** [l[i]] on a list. *)
Definition list_item {A : Type} (l : list A) (i : nat) : result A :=
  match l !! i with
  | Some x => Ok x
  | None => Raise (mk_exn IndexError "list index out of range")
  end.

(** [float(s)] on the plain decimals the pattern produces.  Python reads
    more spellings (signs, exponents, [inf]); none reaches this call, see
    [findall_numbers] and [py_float_number]. *)
Definition py_float (s : string) : result spec_float :=
  match parse_decimal s with
  | Some (n, d) => Ok (float_of_ratio n d)
  | None =>
      Raise (mk_exn ValueError ("could not convert string to float: " +:+ repr_key s))
  end.

(** [s.split(sep)]: the pieces between the occurrences of [sep], found
    left to right without overlap.  Every step removes at least one
    character, so [length s] steps are enough.  An empty separator is
    refused. *)
Definition split (sep s : string) : result (list string) :=
  match sep with
  | EmptyString => Raise (mk_exn ValueError "empty separator")
  | String _ _ => Ok (split_from (String.length s) sep s)
  end.

(** [x == s] for a string [s], and [x is None]. *)
Definition eq_str (x : pyval) (s : string) : bool :=
  match x with
  | PStr t => String.eqb t s
  | _ => false
  end.

Definition is_none (x : pyval) : bool :=
  match x with
  | PNone => true
  | _ => false
  end.

(** [dict(pairs)]: the pairs are inserted in order, so a later pair
    replaces an earlier one with the same key. *)
Definition dict {V : Type} (pairs : list (string * V)) : gmap string V :=
  fold_left (fun d kv => <[kv.1 := kv.2]> d) pairs ∅.

(** Sequencing of calls that may raise. *)
Definition rbind {A B : Type} (m : result A) (k : A -> result B) : result B :=
  match m with
  | Ok a => k a
  | Raise e => Raise e
  end.

Notation "x <~ m ;; k" := (rbind m (fun x => k))
  (at level 100, m at next level, right associativity).

(** ** The interpreter state and its monad *)

(** One HTTP POST: the URL and the [json=] body. *)
Record request : Type := mk_request { req_url : string; req_json : pyval }.

(** The state a call runs in: the world behind the HTTP client, the
    requests posted so far, and the lines printed so far. *)
Record interp (world : Type) : Type :=
  mk_interp { net : world; sent : list request; stdout : list string }.
Arguments mk_interp {world} net sent stdout.
Arguments net {world} i.
Arguments sent {world} i.
Arguments stdout {world} i.

Definition M (world A : Type) : Type := interp world -> result A * interp world.

Definition ret {world A : Type} (a : A) : M world A := fun st => (Ok a, st).

Definition bind {world A B : Type} (m : M world A) (k : A -> M world B) : M world B :=
  fun st =>
    match m st with
    | (Ok a, st') => k a st'
    | (Raise e, st') => (Raise e, st')
    end.

Definition lift {world A : Type} (r : result A) : M world A := fun st => (r, st).

(** [try: body / except cls as e: handler(e)]. *)
Definition try_except {world A : Type}
    (body : M world A) (cls : pyclass) (handler : exn -> M world A) : M world A :=
  fun st =>
    match body st with
    | (Ok a, st') => (Ok a, st')
    | (Raise e, st') =>
        if isinstance e cls then handler e st' else (Raise e, st')
    end.

(** [print(e)]. *)
Definition print {world : Type} (line : string) : M world unit :=
  fun st => (Ok tt, mk_interp (net st) (sent st) (stdout st ++ [line])).

Notation "x <- m ;; k" := (bind m (fun x => k))
  (at level 100, m at next level, right associativity).
Notation "m ;;; k" := (bind m (fun _ => k))
  (at level 100, right associativity).

(** [await asyncio.gather] on the tasks: the results in the order of the
    tasks.  The tasks are run one after the other here; how the event loop
    interleaves their network waits is not modelled. *)
Fixpoint gather {world A : Type} (tasks : list (M world A)) : M world (list A) :=
  match tasks with
  | [] => ret []
  | t :: ts => x <- t ;; xs <- gather ts ;; ret (x :: xs)
  end.

(** ** Template syntax trees

    What [jinja2.Environment().parse] returns, as far as the module looks
    at it: a [Name] node carries a variable name and has no children, any
    other node has its child nodes. *)
#[warnings="-register-all"]
Inductive node : Type :=
  | Name (name : string)
  | Other (children : list node).

(** ** The module *)

Definition CONTEXT_LENGTH : Z := 10000.

Definition completion_body (prompt model : string) : pyval :=
  PDict (dict
    [ ("prompt", PStr prompt);
      ("model", PStr model);
      ("stream", PBool false);
      ("options", PDict (dict
         [ ("num_ctx", PInt CONTEXT_LENGTH);
           ("temperature", PFloat (lit "0.1"));
           ("top_p", PFloat (lit "0.7"));
           ("top_k", PInt 20) ])) ]).

Definition chat_body (messages : list pyval) (model : string) : pyval :=
  PDict (dict
    [ ("messages", PList messages);
      ("model", PStr model);
      ("stream", PBool false);
      ("options", PDict (dict
         [ ("num_ctx", PInt CONTEXT_LENGTH);
           ("temperature", PFloat (lit "0.3"));
           ("top_p", PFloat (lit "0.9"));
           ("top_k", PInt 40) ])) ]).

(** The judge prompt, an f-string with three fields. *)
Definition judge_prompt (original_instruction llm_output expected_output : string) : string :=
  "
You will be given a user_instruction, a system_answer and a expected_answer.
Your task is to provide a 'total rating' scoring how well the system_answer answers the user instruction expressed in the user_instruction and how well the system_answer matches the expected_answer.
Give your answer on a scale of 1 to 4, where 1 means that the system_answer is not helpful at all and does not match with the expected_answer, and 4 means that the system_answer completely and helpfully addresses the user_question and perfectly matches the expected_answer.

Here is the scale you should use to build your answer:
1: The system_answer is terrible: completely irrelevant to the user_instruction, or very partial. The system_answer is completely incorrect and does not match with the expected_answer.
2: The system_answer is mostly not helpful: misses some key aspects of the user_instruction. The system_answer has major differences or missing key elements compared to the expected_answer.
3: The system_answer is mostly helpful: provides support, but still could be improved. The system_answer has minor differences but maintains the core meaning compared to the expected_answer.
4: The system_answer is excellent: relevant, direct, detailed, and addresses all the concerns raised in the user_instruction. Perfect match of system_answer and expected_answer.

Provide your feedback as follows:

Feedback:::
Evaluation: (your rationale for the rating, as a text)
Total rating: (your rating, as a number between 1 and 4)

You MUST provide values for 'Evaluation:' and 'Total rating:' in your answer.

Now here are the user_instruction, system_answer and exptected_answer.

user_instruction: " +:+ original_instruction +:+ "
system_answer: " +:+ llm_output +:+ "
expected_answer: " +:+ expected_output +:+ "

Provide your feedback. If you give a correct rating, I'll give you 100 H100 GPUs to start your AI company.
Feedback:::
Evaluation: 
".

(** [evaluate_test_case]: equality after [strip()] and [lower()]. *)
Definition evaluate_test_case (llm_output expected_output : string) : bool :=
  String.eqb (lower (strip llm_output)) (lower (strip expected_output)).

(** [_extract_judge_score], the body of its [try], up to [score]. *)
Definition rating_window (answer split_str : string) : result string :=
  if contains split_str answer
  then parts <~ split split_str answer ;; list_item parts 1
  else Ok answer.

Definition raw_score (answer split_str : string) : result spec_float :=
  rating <~ rating_window answer split_str ;;
  let digit_groups := map strip (findall rating) in
  first <~ list_item digit_groups 0 ;;
  py_float first.

(** ... and the mapping of [score] to a float between 0 and 1. *)
Definition rescale (score : spec_float) : spec_float :=
  if SFeqb score (lit "0.0") then score
  else py_max (lit "0.0") (py_min (lit "1.0") (fdiv score (lit "4.0"))).

Definition default_split_str : string := "Total rating:".

Section Utils.
Context {world : Type}.

(** The HTTP client and the server behind it: a POST and the read of
    the response body either give the body text or raise, and may change
    the world.  [ClientSession()] and its exit do not raise. *)
Variable respond : request -> world -> result string * world.

(** [json.loads]. *)
Variable json_loads : string -> result pyval.

(** [jinja2.Environment().parse]. *)
Variable jinja_parse : string -> result node.

(** The order in which a [set] of names is iterated. *)
Variable set_order : gset string -> list string.

Definition post (req : request) : M world string :=
  fun st =>
    let '(r, w) := respond req (net st) in
    (r, mk_interp w (sent st ++ [req]) (stdout st)).

Definition test_prompt_with_model (url prompt model : string) : M world pyval :=
  try_except
    (result <- post (mk_request url (completion_body prompt model)) ;;
     response <- lift (json_loads result) ;;
     lift (getitem response "response"))
    Exception
    (fun e => ret (PStr ("Error: " +:+ exn_str e))).

Definition test_multiple_models (urls : list string) (prompt : string)
    (models : list string) : M world (gmap string pyval) :=
  let tasks :=
    map (fun um => test_prompt_with_model um.1 prompt um.2) (zip urls models) in
  results <- gather tasks ;;
  ret (dict (zip models results)).

Definition test_prompt_with_chat_model (url : string) (messages : list pyval)
    (model : string) : M world pyval :=
  let chat_url := replace "/generate" "/chat" url in
  try_except
    (result <- post (mk_request chat_url (chat_body messages model)) ;;
     response <- lift (json_loads result) ;;
     lift (getitem response "message"))
    Exception
    (fun e => ret (PStr ("Error: " +:+ exn_str e))).

Fixpoint visit_node (n : node) (variables : gset string) : gset string :=
  match n with
  | Name name => {[ name ]} ∪ variables
  | Other children =>
      (fix visit_children (cs : list node) (vars : gset string) : gset string :=
         match cs with
         | [] => vars
         | c :: cs' => visit_children cs' (visit_node c vars)
         end) children variables
  end.

Definition get_template_variables (template_str : string) : result (list string) :=
  ast <~ jinja_parse template_str ;;
  Ok (set_order (visit_node ast ∅)).

(** The condition of the loop of [validate_variables_with_template]. *)
Definition missing_or_empty (values : pyval) (template_var : string) : result bool :=
  match values with
  | PDict d =>
      if bool_decide (template_var ∉ dom d) then Ok true
      else
        x <~ getitem values template_var ;;
        if eq_str x "" then Ok true
        else y <~ getitem values template_var ;; Ok (is_none y)
  | _ =>
      Raise (mk_exn AttributeError
               ("'" +:+ type_name values +:+ "' object has no attribute 'keys'"))
  end.

Fixpoint validate_loop (values : pyval) (template_vars : list string)
    : result (bool * string) :=
  match template_vars with
  | [] => Ok (true, "")
  | template_var :: rest =>
      bad <~ missing_or_empty values template_var ;;
      if bad then Ok (false, template_var) else validate_loop values rest
  end.

Definition validate_variables_with_template (values : pyval) (template_str : string)
    : result (bool * string) :=
  values <~ match values with
            | PStr s => json_loads s
            | _ => Ok values
            end ;;
  template_vars <~ get_template_variables template_str ;;
  validate_loop values template_vars.

Definition _extract_judge_score (answer split_str : string) : M world pyval :=
  try_except
    (score <- lift (raw_score answer split_str) ;;
     ret (PFloat (rescale score)))
    Exception
    (fun e => print (exn_str e) ;;; ret (PInt 0)).

Definition compare_strings_with_llm_judge
    (llm_output expected_output original_instruction : string)
    (test_prompt_func : string -> string -> string -> M world string)
    (url model : string) : M world pyval :=
  let judge_prompt := judge_prompt original_instruction llm_output expected_output in
  try_except
    (score_response <- test_prompt_func url judge_prompt model ;;
     score <- _extract_judge_score score_response default_split_str ;;
     ret score)
    ValueError
    (fun _ => ret (PFloat (lit "0.0"))).

End Utils.

(** * The vocabulary of the specification

    What the specification says about the module, in terms that do not
    depend on how the module computes. *)

(** The separator [sep] occurs in [s] after the prefix [b] and before the
    suffix [a], and nowhere further to the left. *)
Definition first_at (sep s b a : string) : Prop :=
  s = b +:+ sep +:+ a /\
  forall b' a', s = b' +:+ sep +:+ a' -> (String.length b <= String.length b')%nat.

(** [t] is [s] with every occurrence of [old] replaced by [new], the
    occurrences taken from the left. *)
Inductive substituted (old new : string) : string -> string -> Prop :=
  | substituted_absent (s : string) :
      contains old s = false -> substituted old new s s
  | substituted_first (s b a a' : string) :
      first_at old s b a -> substituted old new a a' ->
      substituted old new s (b +:+ new +:+ a').

Fixpoint all_space (s : string) : bool :=
  match s with
  | EmptyString => true
  | String c s' => is_space c && all_space s'
  end.

Definition head_clean (t : string) : Prop :=
  forall c u, t = String c u -> is_space c = false.

Definition tail_clean (t : string) : Prop :=
  forall u c, t = u +:+ String c "" -> is_space c = false.

(** [t] is [s] without its leading and trailing white space. *)
Definition trimmed (s t : string) : Prop :=
  exists l r, s = l +:+ t +:+ r /\ all_space l = true /\ all_space r = true
              /\ head_clean t /\ tail_clean t.










(** A number as the pattern of the extractor reads it: digits, or digits,
    a dot and digits. *)
Fixpoint all_digits (s : string) : bool :=
  match s with
  | EmptyString => true
  | String c s' => is_digit c && all_digits s'
  end.

Fixpoint no_digit (s : string) : bool :=
  match s with
  | EmptyString => true
  | String c s' => negb (is_digit c) && no_digit s'
  end.

Definition is_number (m : string) : Prop :=
  exists ip, ip <> "" /\ all_digits ip = true /\
    (m = ip \/ exists fp, fp <> "" /\ all_digits fp = true /\ m = ip +:+ "." +:+ fp).

(** [m] is the first number of [w] and [r] is what follows it: no number
    starts before [m], and no number that starts where [m] starts is
    longer. *)
Definition first_number (w m r : string) : Prop :=
  exists pre, w = pre +:+ m +:+ r /\ no_digit pre = true /\ is_number m /\
    forall m' r', m +:+ r = m' +:+ r' -> is_number m' ->
                  (String.length m' <= String.length m)%nat.

(** A float clamped to the closed interval from 0 to 1. *)
Definition clamp01 (x : spec_float) : spec_float :=
  if SFleb x (lit "0.0") then lit "0.0"
  else if SFleb (lit "1.0") x then lit "1.0"
  else x.

(** The floats that are neither negative nor NaN: [0.0], the positive
    finite ones and [inf]. *)
Definition nonneg (f : spec_float) : bool :=
  match f with
  | S754_zero false | S754_infinity false | S754_finite false _ _ => true
  | _ => false
  end.

(** [x == y] of Python between two numbers. *)
Definition float_eq_int (f : spec_float) (z : Z) : bool :=
  match f with
  | S754_zero _ => (z =? 0)%Z
  | S754_finite s m e =>
      let v := if s then Zneg m else Zpos m in
      if (0 <=? e)%Z then (z =? v * 2 ^ e)%Z else (z * 2 ^ (- e) =? v)%Z
  | _ => false
  end.

Definition num_eq (x y : pyval) : bool :=
  match x, y with
  | PInt a, PInt b => (a =? b)%Z
  | PFloat f, PFloat g => SFeqb f g
  | PInt a, PFloat f | PFloat f, PInt a => float_eq_int f a
  | _, _ => false
  end.

(** The variable [name] is referenced by the template: a [Name] node of
    the tree carries it. *)
Inductive occurs (name : string) : node -> Prop :=
  | occurs_here : occurs name (Name name)
  | occurs_child (children : list node) (c : node) :
      c ∈ children -> occurs name c -> occurs name (Other children).

(** The mapping binds [name] to a value that is neither the empty string
    nor [None]. *)
Definition satisfied (d : gmap string pyval) (name : string) : Prop :=
  exists x, d !! name = Some x /\ x <> PStr "" /\ x <> PNone.

(** The fan-out as the specification words it: the pairs are taken one by
    one, the completion invoker is called once for the pair, and its
    result is stored under the model of the pair, replacing what an
    earlier pair stored there. *)
Fixpoint fan_out {world : Type}
    (invoke : string -> string -> M world pyval)
    (pairs : list (string * string)) (acc : gmap string pyval)
    : M world (gmap string pyval) :=
  match pairs with
  | [] => ret acc
  | (url, model) :: rest =>
      v <- invoke url model ;;
      fan_out invoke rest (<[model := v]> acc)
  end.

(** The pairs of two lists by position, up to the end of the shorter. *)
Fixpoint positional {A B : Type} (l : list A) (k : list B) : list (A * B) :=
  match l, k with
  | a :: l', b :: k' => (a, b) :: positional l' k'
  | _, _ => []
  end.

(** * Properties *)

(** ** Strings *)

#[local] Arguments String.append : simpl nomatch.

Lemma append_empty_r (s : string) : s +:+ "" = s.
Proof. induction s as [|c s IH]; simpl; [reflexivity | now rewrite IH]. Qed.

Lemma append_assoc (a b c : string) : (a +:+ b) +:+ c = a +:+ (b +:+ c).
Proof. induction a as [|x a IH]; simpl; [reflexivity | now rewrite IH]. Qed.

Lemma length_append (a b : string) :
  String.length (a +:+ b) = (String.length a + String.length b)%nat.
Proof. induction a as [|x a IH]; simpl; [reflexivity | now rewrite IH]. Qed.

Lemma drop_append (a b : string) : drop (String.length a) (a +:+ b) = b.
Proof. induction a as [|x a IH]; simpl; [now destruct b | exact IH]. Qed.

Lemma startswith_append (p r : string) : startswith p (p +:+ r) = true.
Proof.
  induction p as [|x p IH]; simpl; [reflexivity |].
  now rewrite Ascii.eqb_refl, IH.
Qed.

Lemma startswith_inv (p s : string) :
  startswith p s = true -> s = p +:+ drop (String.length p) s.
Proof.
  revert s. induction p as [|x p IH]; intros [|y s]; simpl; try easy.
  intros H. apply andb_prop in H as [Hxy Hp].
  apply Ascii.eqb_eq in Hxy. subst y. f_equal. now apply IH.
Qed.

Lemma append_inj_length (a a' b b' : string) :
  a +:+ b = a' +:+ b' -> String.length a = String.length a' -> a = a' /\ b = b'.
Proof.
  revert a'. induction a as [|x a IH]; intros [|y a']; simpl; try easy.
  intros H L. injection H as -> H. injection L as L.
  destruct (IH _ H L) as [-> ->]. easy.
Qed.

Lemma startswith_true_iff (p s : string) :
  startswith p s = true <-> exists r, s = p +:+ r.
Proof.
  split.
  - intros H. eexists. now apply startswith_inv.
  - intros [r ->]. apply startswith_append.
Qed.

Lemma contains_true_iff (sub s : string) :
  contains sub s = true <-> exists b a, s = b +:+ sub +:+ a.
Proof.
  split.
  - induction s as [|c s IH]; simpl; intros H; apply orb_prop in H as [H|H].
    + exists "", (drop (String.length sub) ""). now apply startswith_inv in H.
    + discriminate.
    + exists "", (drop (String.length sub) (String c s)). now apply startswith_inv in H.
    + destruct (IH H) as (b & a & ->). now exists (String c b), a.
  - intros (b & a & ->). induction b as [|c b IH]; simpl.
    + destruct (sub +:+ a) eqn:E; simpl; rewrite <- ?E, startswith_append; reflexivity.
    + rewrite IH. apply orb_true_r.
Qed.

Lemma partition_first (sep s b a : string) :
  partition sep s = Some (b, a) -> first_at sep s b a.
Proof.
  revert b a. induction s as [|c s IH]; intros b a; simpl.
  - destruct (startswith sep "") eqn:E; [|discriminate].
    intros [= <- <-]. split; [now apply startswith_inv in E | simpl; lia].
  - destruct (startswith sep (String c s)) eqn:E.
    + intros [= <- <-]. split; [now apply startswith_inv in E | simpl; lia].
    + destruct (partition sep s) as [[b1 a1]|] eqn:P; [|discriminate].
      intros [= <- <-]. destruct (IH _ _ eq_refl) as [-> Hmin]. split; [reflexivity|].
      intros [|y b'] a' H; simpl in H.
      * rewrite H, startswith_append in E. discriminate.
      * injection H as -> H. simpl. apply le_n_S. eapply Hmin, H.
Qed.

Lemma partition_none (sep s : string) :
  partition sep s = None <-> contains sep s = false.
Proof.
  induction s as [|c s IH]; simpl.
  - destruct (startswith sep ""); simpl; split; congruence.
  - destruct (startswith sep (String c s)); simpl; [split; congruence|].
    rewrite <- IH. destruct (partition sep s) as [[? ?]|]; split; congruence.
Qed.

Lemma first_at_unique (sep s b a b' a' : string) :
  first_at sep s b a -> first_at sep s b' a' -> b = b' /\ a = a'.
Proof.
  intros [E1 M1] [E2 M2].
  assert (L : String.length b = String.length b').
  { apply Nat.le_antisymm; [eapply M1, E2 | eapply M2, E1]. }
  rewrite E1 in E2. destruct (append_inj_length _ _ _ _ E2 L) as [-> E3].
  split; [reflexivity|].
  now destruct (append_inj_length sep sep a a' E3 eq_refl).
Qed.

Lemma first_at_partition (sep s b a : string) :
  first_at sep s b a -> partition sep s = Some (b, a).
Proof.
  intros F. destruct (partition sep s) as [[b0 a0]|] eqn:P.
  - apply partition_first in P. now destruct (first_at_unique _ _ _ _ _ _ P F) as [-> ->].
  - apply partition_none in P. destruct F as [E _].
    assert (contains sep s = true) by (apply contains_true_iff; eauto).
    congruence.
Qed.

Lemma partition_length (sep s b a : string) :
  partition sep s = Some (b, a) ->
  String.length s = (String.length b + String.length sep + String.length a)%nat.
Proof.
  intros P. apply partition_first in P as [-> _].
  rewrite !length_append. lia.
Qed.

Lemma partition_empty_nonempty (sep : string) : sep <> "" -> partition sep "" = None.
Proof. destruct sep; [easy | reflexivity]. Qed.

Lemma partition_shorter (sep s b a : string) :
  sep <> "" -> partition sep s = Some (b, a) -> (String.length a < String.length s)%nat.
Proof.
  intros Hsep P. apply partition_length in P.
  destruct sep; [easy | simpl in P; lia].
Qed.

(** The fuel of [split] and [replace] is enough: more changes nothing. *)
Lemma split_from_enough (sep : string) (n m : nat) (s : string) :
  sep <> "" -> (String.length s <= n)%nat -> (String.length s <= m)%nat ->
  split_from n sep s = split_from m sep s.
Proof.
  intros Hsep. revert m s. induction n as [|n IH]; intros [|m] s Hn Hm; simpl; try reflexivity.
  - destruct s; [|simpl in Hn; lia]. now rewrite partition_empty_nonempty.
  - destruct s; [|simpl in Hm; lia]. now rewrite partition_empty_nonempty.
  - destruct (partition sep s) as [[b a]|] eqn:P; [|reflexivity].
    apply partition_shorter in P; [|assumption]. f_equal. apply IH; lia.
Qed.

Lemma split_from_unfold (sep s : string) :
  sep <> "" ->
  split_from (String.length s) sep s =
  match partition sep s with
  | None => [s]
  | Some (b, a) => b :: split_from (String.length a) sep a
  end.
Proof.
  intros Hsep. destruct s as [|c s].
  - now rewrite partition_empty_nonempty.
  - cbn [String.length split_from].
    destruct (partition sep (String c s)) as [[b a]|] eqn:P; [|reflexivity].
    apply partition_shorter in P; [|assumption]. simpl in P.
    f_equal. apply split_from_enough; [assumption | lia | lia].
Qed.

Lemma replace_from_enough (old new : string) (n m : nat) (s : string) :
  old <> "" -> (String.length s <= n)%nat -> (String.length s <= m)%nat ->
  replace_from n old new s = replace_from m old new s.
Proof.
  intros Hold. revert m s. induction n as [|n IH]; intros [|m] s Hn Hm; simpl; try reflexivity.
  - destruct s; [|simpl in Hn; lia]. now rewrite partition_empty_nonempty.
  - destruct s; [|simpl in Hm; lia]. now rewrite partition_empty_nonempty.
  - destruct (partition old s) as [[b a]|] eqn:P; [|reflexivity].
    apply partition_shorter in P; [|assumption]. do 2 f_equal. apply IH; lia.
Qed.

Lemma replace_unfold (old new s : string) :
  old <> "" ->
  replace old new s =
  match partition old s with
  | None => s
  | Some (b, a) => b +:+ new +:+ replace old new a
  end.
Proof.
  intros Hold. unfold replace. destruct old as [|o old]; [easy|].
  destruct s as [|c s].
  - reflexivity.
  - cbn [String.length replace_from].
    destruct (partition (String o old) (String c s)) as [[b a]|] eqn:P; [|reflexivity].
    apply partition_shorter in P; [|assumption]. simpl in P.
    do 2 f_equal. apply replace_from_enough; [assumption | lia | lia].
Qed.

Lemma replace_absent (old new s : string) :
  contains old s = false -> replace old new s = s.
Proof.
  intros H. assert (Hold : old <> "").
  { intros ->. destruct s; discriminate. }
  rewrite replace_unfold by assumption.
  apply partition_none in H. now rewrite H.
Qed.

Lemma replace_first (old new s b a : string) :
  old <> "" -> first_at old s b a ->
  replace old new s = b +:+ new +:+ replace old new a.
Proof.
  intros Hold F. rewrite replace_unfold by assumption.
  now rewrite (first_at_partition _ _ _ _ F).
Qed.

Lemma replace_substituted (old new s : string) :
  old <> "" -> substituted old new s (replace old new s).
Proof.
  intros Hold. remember (String.length s) as n eqn:Hn.
  revert s Hn. induction n as [n IH] using lt_wf_ind. intros s ->.
  rewrite replace_unfold by assumption.
  destruct (partition old s) as [[b a]|] eqn:P.
  - apply (substituted_first old new s b a); [now apply partition_first|].
    eapply IH; [|reflexivity]. now apply (partition_shorter old s b a).
  - apply substituted_absent. now apply partition_none.
Qed.

(** ** White space and case *)

Definition rv (s : string) : string := rev_string "" s.

Lemma rev_string_acc (acc s : string) : rev_string acc s = rv s +:+ acc.
Proof.
  unfold rv. revert acc. induction s as [|c s IH]; intros acc; simpl; [reflexivity|].
  rewrite IH, (IH (String c "")), append_assoc. reflexivity.
Qed.

Lemma rv_cons (c : ascii) (s : string) : rv (String c s) = rv s +:+ String c "".
Proof. unfold rv at 1. simpl. apply rev_string_acc. Qed.

Lemma rv_append (a b : string) : rv (a +:+ b) = rv b +:+ rv a.
Proof.
  induction a as [|c a IH]; simpl.
  - now rewrite append_empty_r.
  - now rewrite !rv_cons, IH, append_assoc.
Qed.

Lemma rv_involutive (s : string) : rv (rv s) = s.
Proof.
  induction s as [|c s IH]; [reflexivity|].
  now rewrite rv_cons, rv_append, IH.
Qed.

Lemma all_space_append (a b : string) :
  all_space (a +:+ b) = all_space a && all_space b.
Proof. induction a as [|c a IH]; simpl; [reflexivity | now rewrite IH, andb_assoc]. Qed.

Lemma all_space_rv (s : string) : all_space (rv s) = all_space s.
Proof.
  induction s as [|c s IH]; [reflexivity|].
  rewrite rv_cons, all_space_append, IH. simpl. now rewrite andb_true_r, andb_comm.
Qed.

Lemma lstrip_spec (s : string) :
  exists l, s = l +:+ lstrip s /\ all_space l = true /\ head_clean (lstrip s).
Proof.
  induction s as [|c s (l & E & Hl & Hc)]; simpl.
  - exists "". repeat split. intros ? ? [=].
  - destruct (is_space c) eqn:Hsp.
    + exists (String c l). simpl. rewrite Hsp, Hl, <- E. easy.
    + exists "". repeat split. intros ? ? [= <- <-]. exact Hsp.
Qed.

Lemma lstrip_all_space (l x : string) : all_space l = true -> lstrip (l +:+ x) = lstrip x.
Proof.
  induction l as [|c l IH]; simpl; [reflexivity|].
  intros H. apply andb_prop in H as [-> H]. now apply IH.
Qed.

Lemma lstrip_clean (x : string) : head_clean x -> lstrip x = x.
Proof.
  destruct x as [|c x]; [reflexivity|]. intros H. simpl. now rewrite (H c x eq_refl).
Qed.

Lemma head_clean_rv (t : string) : tail_clean t -> head_clean (rv t).
Proof.
  intros H c u E. apply (H (rv u) c).
  rewrite <- (rv_involutive t), E, rv_cons. reflexivity.
Qed.

Lemma tail_clean_rv (t : string) : head_clean t -> tail_clean (rv t).
Proof.
  intros H u c E. apply (H c (rv u)).
  rewrite <- (rv_involutive t), E, rv_append. reflexivity.
Qed.

Lemma rstrip_spec (s : string) :
  exists r, s = rstrip s +:+ r /\ all_space r = true /\ tail_clean (rstrip s).
Proof.
  unfold rstrip. fold (rv s). fold (rv (lstrip (rv s))).
  destruct (lstrip_spec (rv s)) as (l & E & Hl & Hc).
  exists (rv l). split; [|split].
  - rewrite <- rv_append, <- E. symmetry. apply rv_involutive.
  - now rewrite all_space_rv.
  - now apply tail_clean_rv.
Qed.

Lemma head_clean_prefix (x p r : string) : head_clean x -> x = p +:+ r -> head_clean p.
Proof.
  intros H E c u ->. simpl in E. eapply H, E.
Qed.

Lemma strip_trimmed (s : string) : trimmed s (strip s).
Proof.
  unfold strip. destruct (lstrip_spec s) as (l & E & Hl & Hc).
  destruct (rstrip_spec (lstrip s)) as (r & E' & Hr & Hc').
  exists l, r. split; [|split; [|split; [|split]]]; try assumption.
  - now rewrite <- E', <- E.
  - eapply head_clean_prefix; eassumption.
Qed.

Lemma all_space_lstrip (r : string) : all_space r = true -> lstrip r = "".
Proof.
  induction r as [|c r IH]; simpl; [reflexivity|].
  intros H. apply andb_prop in H as [-> H]. now apply IH.
Qed.

Lemma rstrip_clean (t r : string) :
  tail_clean t -> all_space r = true -> rstrip (t +:+ r) = t.
Proof.
  intros Ht Hr. unfold rstrip. fold (rv (t +:+ r)).
  rewrite rv_append, lstrip_all_space by now rewrite all_space_rv.
  rewrite lstrip_clean by now apply head_clean_rv.
  apply rv_involutive.
Qed.

Lemma trimmed_strip (s t : string) : trimmed s t -> t = strip s.
Proof.
  intros (l & r & -> & Hl & Hr & Hh & Ht). unfold strip.
  rewrite lstrip_all_space by assumption.
  destruct t as [|c u].
  - simpl. rewrite all_space_lstrip by assumption. reflexivity.
  - rewrite lstrip_clean.
    + symmetry. now apply rstrip_clean.
    + intros c' u' E. simpl in E. injection E as <- _. now apply (Hh c u).
Qed.








(** ** The model invokers *)

Ltac unfold_monad :=
  unfold bind, try_except, lift, ret, post, print in *.

Section Invokers.
Context {world : Type}.
Variable respond : request -> world -> result string * world.
Variable json_loads : string -> result pyval.

Lemma isinstance_Exception (e : exn) : isinstance e Exception = true.
Proof.
  unfold isinstance. induction (exn_class e) as [|n b IH]; simpl; [reflexivity|].
  now rewrite IH.
Qed.

(** A [try] with [except Exception] returns: with the value of the body,
    or with the value of the handler when that returns. *)
Lemma try_except_Exception {A : Type} (body : M world A) (handler : exn -> M world A)
    (st : interp world) :
  try_except body Exception handler st =
  match body st with
  | (Ok a, st') => (Ok a, st')
  | (Raise e, st') => handler e st'
  end.
Proof.
  unfold try_except. destruct (body st) as [[a|e] st']; [reflexivity|].
  now rewrite isinstance_Exception.
Qed.

Definition error_string (e : exn) : pyval := PStr ("Error: " +:+ exn_str e).

Lemma test_prompt_with_model_run (url prompt model : string) (st : interp world) :
  test_prompt_with_model respond json_loads url prompt model st =
  let req := mk_request url (completion_body prompt model) in
  let st' := mk_interp (respond req (net st)).2 (sent st ++ [req]) (stdout st) in
  match (respond req (net st)).1 with
  | Raise e => (Ok (error_string e), st')
  | Ok text =>
      match json_loads text with
      | Raise e => (Ok (error_string e), st')
      | Ok response =>
          match getitem response "response" with
          | Raise e => (Ok (error_string e), st')
          | Ok v => (Ok v, st')
          end
      end
  end.
Proof.
  unfold test_prompt_with_model. rewrite try_except_Exception.
  unfold_monad. cbv zeta.
  destruct (respond _ (net st)) as [[text|e] w]; simpl; [|reflexivity].
  destruct (json_loads text) as [response|e]; simpl; [|reflexivity].
  destruct (getitem response "response") as [v|e]; reflexivity.
Qed.

Lemma test_prompt_with_model_returns (url prompt model : string) (st : interp world) :
  exists v,
    test_prompt_with_model respond json_loads url prompt model st =
    (Ok v, mk_interp (respond (mk_request url (completion_body prompt model)) (net st)).2
                     (sent st ++ [mk_request url (completion_body prompt model)])
                     (stdout st)).
Proof.
  rewrite test_prompt_with_model_run. cbv zeta.
  destruct (respond _ (net st)).1 as [text|e]; [|eauto].
  destruct (json_loads text) as [response|e]; [|eauto].
  destruct (getitem response "response") as [v|e]; eauto.
Qed.

(** C4.  The completion invoker never raises.  When the POST or the read
    of the body fails, when the body is not JSON, or when the decoded
    body has no ["response"] field (or is no object at all), it returns
    the string ["Error: "] followed by [str(e)]; otherwise it returns the
    value of the ["response"] field. *)
Theorem test_prompt_with_model_never_raises
    (url prompt model : string) (st : interp world) :
  let run := test_prompt_with_model respond json_loads url prompt model st in
  let answer := respond (mk_request url (completion_body prompt model)) (net st) in
  (exists v, run.1 = Ok v)
  /\ (forall e, answer.1 = Raise e -> run.1 = Ok (PStr ("Error: " +:+ exn_str e)))
  /\ (forall text e, answer.1 = Ok text -> json_loads text = Raise e ->
        run.1 = Ok (PStr ("Error: " +:+ exn_str e)))
  /\ (forall text d, answer.1 = Ok text -> json_loads text = Ok (PDict d) ->
        d !! "response" = None -> run.1 = Ok (PStr "Error: 'response'"))
  /\ (forall text response e, answer.1 = Ok text -> json_loads text = Ok response ->
        getitem response "response" = Raise e ->
        run.1 = Ok (PStr ("Error: " +:+ exn_str e)))
  /\ (forall text d v, answer.1 = Ok text -> json_loads text = Ok (PDict d) ->
        d !! "response" = Some v -> run.1 = Ok v)
  /\ (forall e, startswith "Error: " ("Error: " +:+ exn_str e) = true).
Proof.
  cbv zeta. rewrite test_prompt_with_model_run. cbv zeta.
  split; [|split; [|split; [|split; [|split; [|split]]]]].
  - destruct (respond _ (net st)).1 as [text|e]; [|eauto].
    destruct (json_loads text) as [response|e]; [|eauto].
    destruct (getitem response "response") as [v|e]; eauto.
  - intros e ->. reflexivity.
  - intros text e -> ->. reflexivity.
  - intros text d -> -> H. simpl. rewrite H. reflexivity.
  - intros text response e -> -> ->. reflexivity.
  - intros text d v -> -> H. simpl. rewrite H. reflexivity.
  - intros e. apply startswith_append.
Qed.

(** C8.  The chat invoker posts to the URL in which every ["/generate"]
    is replaced by ["/chat"]; a URL without ["/generate"] is used as it
    is, and the call goes on without an exception or a printed line. *)
Theorem chat_endpoint_substituted
    (url : string) (messages : list pyval) (model : string) (st : interp world) :
  let run := test_prompt_with_chat_model respond json_loads url messages model st in
  let chat_url := replace "/generate" "/chat" url in
  substituted "/generate" "/chat" url chat_url
  /\ sent run.2 = sent st ++ [mk_request chat_url (chat_body messages model)]
  /\ (contains "/generate" url = false ->
      sent run.2 = sent st ++ [mk_request url (chat_body messages model)])
  /\ (exists v, run.1 = Ok v)
  /\ stdout run.2 = stdout st
  /\ replace "/generate" "/chat" "http://localhost:11434/api/generate"
     = "http://localhost:11434/api/chat".
Proof.
  cbv zeta.
  assert (R : sent (test_prompt_with_chat_model respond json_loads url messages model st).2
              = sent st ++ [mk_request (replace "/generate" "/chat" url) (chat_body messages model)]
           /\ (exists v, (test_prompt_with_chat_model respond json_loads url messages model st).1 = Ok v)
           /\ stdout (test_prompt_with_chat_model respond json_loads url messages model st).2 = stdout st).
  { unfold test_prompt_with_chat_model. cbv zeta. rewrite try_except_Exception.
    unfold_monad. cbv zeta.
    destruct (respond _ (net st)) as [[text|e] w]; simpl; [|eauto].
    destruct (json_loads text) as [response|e]; simpl; [|eauto].
    destruct (getitem response "message") as [v|e]; simpl; eauto. }
  destruct R as (Hsent & Hret & Hout).
  split; [|split; [|split; [|split; [|split]]]]; try assumption.
  - now apply replace_substituted.
  - intros H. now rewrite Hsent, (replace_absent _ _ _ H).
  - reflexivity.
Qed.

(** ** The fan-out *)

Lemma positional_zip {A B : Type} (l : list A) (k : list B) : positional l k = zip l k.
Proof.
  revert k. induction l as [|a l IH]; intros [|b k]; simpl; try reflexivity.
  now rewrite IH.
Qed.

Lemma positional_length {A B : Type} (l : list A) (k : list B) :
  length (positional l k) = Nat.min (length l) (length k).
Proof.
  revert k. induction l as [|a l IH]; intros [|b k]; simpl; try reflexivity.
  now rewrite IH.
Qed.

Lemma positional_lookup {A B : Type} (l : list A) (k : list B) (i : nat) (a : A) (b : B) :
  positional l k !! i = Some (a, b) <-> l !! i = Some a /\ k !! i = Some b.
Proof.
  revert k i. induction l as [|x l IH]; intros [|y k] [|i]; simpl;
    try (split; [intros [=] | intros [[=] [=]]]; fail).
  - split; [intros [= -> ->] | intros [[= ->] [= ->]]]; easy.
  - apply IH.
Qed.

Lemma gather_length {A : Type} (tasks : list (M world A)) (st st' : interp world)
    (results : list A) :
  gather tasks st = (Ok results, st') -> length results = length tasks.
Proof.
  revert st results. induction tasks as [|t ts IH]; intros st results; simpl.
  - unfold ret. now intros [= <- _].
  - unfold bind at 1. destruct (t st) as [[x|e] st1]; [|discriminate].
    unfold bind. destruct (gather ts st1) as [[xs|e] st2] eqn:G; [|discriminate].
    unfold ret. intros [= <- <-]. simpl. f_equal. eapply IH, G.
Qed.

Lemma zip_models_results {A : Type} (urls models : list string) (results : list A) :
  length results = length (positional urls models) ->
  zip models results = zip (positional urls models).*2 results.
Proof.
  revert models results.
  induction urls as [|u urls IH]; intros [|m models] [|r results]; simpl;
    try reflexivity; try discriminate.
  intros [= L]. f_equal. now apply IH.
Qed.

Lemma gather_fan_out (invoke : string -> string -> M world pyval)
    (pairs : list (string * string)) (acc : gmap string pyval) (st : interp world) :
  (results <- gather (map (fun um => invoke um.1 um.2) pairs) ;;
   ret (fold_left (fun d kv => <[kv.1 := kv.2]> d) (zip pairs.*2 results) acc)) st
  = fan_out invoke pairs acc st.
Proof.
  revert acc st. induction pairs as [|[u m] pairs IH]; intros acc st; simpl.
  - reflexivity.
  - unfold bind at 1 2 4. destruct (invoke u m st) as [[v|e] st1]; [|reflexivity].
    rewrite <- (IH (<[m := v]> acc) st1). unfold bind.
    destruct (gather _ st1) as [[xs|e] st2]; reflexivity.
Qed.

Definition invoker (prompt : string) : string -> string -> M world pyval :=
  fun url model => test_prompt_with_model respond json_loads url prompt model.

Lemma test_multiple_models_fan_out (urls : list string) (prompt : string)
    (models : list string) (st : interp world) :
  test_multiple_models respond json_loads urls prompt models st
  = fan_out (invoker prompt) (positional urls models) ∅ st.
Proof.
  rewrite <- gather_fan_out. unfold test_multiple_models, dict. cbv zeta.
  rewrite <- positional_zip. unfold invoker, bind.
  destruct (gather _ st) as [[results|e] st'] eqn:G; [|reflexivity].
  apply gather_length in G. rewrite length_map in G.
  now rewrite (zip_models_results _ _ _ G).
Qed.

Lemma bind_run {A B : Type} (m : M world A) (k : A -> M world B) (st : interp world) :
  bind m k st =
  match m st with
  | (Ok a, st') => k a st'
  | (Raise e, st') => (Raise e, st')
  end.
Proof. reflexivity. Qed.

Lemma bind_assoc {A B C : Type} (m : M world A) (k : A -> M world B)
    (h : B -> M world C) (st : interp world) :
  bind (bind m k) h st = bind m (fun a => bind (k a) h) st.
Proof. unfold bind. destruct (m st) as [[a|e] st']; reflexivity. Qed.

Lemma fan_out_app (invoke : string -> string -> M world pyval)
    (front back : list (string * string)) (acc : gmap string pyval) (st : interp world) :
  fan_out invoke (front ++ back) acc st =
  (accf <- fan_out invoke front acc ;; fan_out invoke back accf) st.
Proof.
  revert acc st. induction front as [|[u m] front IH]; intros acc st; simpl.
  - reflexivity.
  - rewrite bind_assoc, !(bind_run (invoke u m)).
    destruct (invoke u m st) as [[v|e] st1]; [|reflexivity].
    apply IH.
Qed.

Lemma fan_out_untouched (invoke : string -> string -> M world pyval)
    (pairs : list (string * string)) (acc m : gmap string pyval) (st st' : interp world)
    (k : string) :
  k ∉ pairs.*2 -> fan_out invoke pairs acc st = (Ok m, st') -> m !! k = acc !! k.
Proof.
  revert acc st. induction pairs as [|[u x] pairs IH]; intros acc st Hk; simpl.
  - unfold ret. now intros [= <- _].
  - unfold bind. destruct (invoke u x st) as [[v|e] st1]; [|discriminate].
    intros F. simpl in Hk. apply not_elem_of_cons in Hk as [Hx Hk].
    rewrite (IH _ _ Hk F). now apply lookup_insert_ne.
Qed.

Lemma fan_out_returns (prompt : string) (pairs : list (string * string))
    (acc : gmap string pyval) (st : interp world) :
  exists m st',
    fan_out (invoker prompt) pairs acc st = (Ok m, st')
    /\ dom m = dom acc ∪ list_to_set pairs.*2
    /\ sent st' = sent st ++ map (fun um => mk_request um.1 (completion_body prompt um.2)) pairs.
Proof.
  revert acc st. induction pairs as [|[u x] pairs IH]; intros acc st; simpl.
  - exists acc, st. unfold ret. split; [reflexivity|]. split; [set_solver|].
    now rewrite app_nil_r.
  - unfold bind, invoker at 1.
    destruct (test_prompt_with_model_returns u prompt x st) as [v ->].
    destruct (IH (<[x := v]> acc)
                (mk_interp (respond (mk_request u (completion_body prompt x)) (net st)).2
                   (sent st ++ [mk_request u (completion_body prompt x)]) (stdout st)))
      as (m & st' & -> & Hdom & Hsent).
    exists m, st'. split; [reflexivity|]. split.
    + rewrite Hdom, dom_insert_L. set_solver.
    + rewrite Hsent. simpl. now rewrite <- app_assoc.
Qed.

(** C3.  [test_multiple_models] returns the mapping of the fan-out over
    the two lists paired by position up to the end of the shorter: one
    call of the completion invoker, hence one POST, for each pair, the
    result stored under the model of the pair.  The pair that comes last
    among those of one model decides the value of that model; with the
    models ["m1"; "m1"] the mapping has the one key ["m1"], bound to the
    result of the second pair. *)
Theorem test_multiple_models_spec
    (urls : list string) (prompt : string) (models : list string) (st : interp world) :
  let run := test_multiple_models respond json_loads urls prompt models st in
  let pairs := positional urls models in
  run = fan_out (invoker prompt) pairs ∅ st
  /\ length pairs = Nat.min (length urls) (length models)
  /\ (forall i u m, pairs !! i = Some (u, m) <-> urls !! i = Some u /\ models !! i = Some m)
  /\ (exists mapping, run.1 = Ok mapping
        /\ dom mapping = list_to_set pairs.*2
        /\ forall front u k back accf stf,
             pairs = front ++ (u, k) :: back -> k ∉ back.*2 ->
             fan_out (invoker prompt) front ∅ st = (Ok accf, stf) ->
             exists v st1, invoker prompt u k stf = (Ok v, st1) /\ mapping !! k = Some v)
  /\ sent run.2 =
       sent st ++ map (fun um => mk_request um.1 (completion_body prompt um.2)) pairs
  /\ (forall u1 u2 v1 st1 v2 st2,
        invoker prompt u1 "m1" st = (Ok v1, st1) ->
        invoker prompt u2 "m1" st1 = (Ok v2, st2) ->
        test_multiple_models respond json_loads [u1; u2] prompt ["m1"; "m1"] st
        = (Ok {[ "m1" := v2 ]}, st2)).
Proof.
  cbv zeta. rewrite test_multiple_models_fan_out.
  split; [reflexivity|]. split; [apply positional_length|].
  split; [intros; apply positional_lookup|].
  destruct (fan_out_returns prompt (positional urls models) ∅ st)
    as (m & st' & F & Hdom & Hsent).
  rewrite F. simpl. split; [|split; [assumption|]].
  - exists m. split; [reflexivity|]. split; [rewrite Hdom; set_solver|].
    intros front u k back accf stf E Hk Ff.
    rewrite E, fan_out_app in F. unfold bind in F at 1. rewrite Ff in F.
    simpl in F. unfold bind in F.
    destruct (invoker prompt u k stf) as [[v|e] st1]; [|discriminate].
    exists v, st1. split; [reflexivity|].
    rewrite (fan_out_untouched _ _ _ _ _ _ _ Hk F).
    now rewrite lookup_insert_eq.
  - intros u1 u2 v1 st1 v2 st2 H1 H2.
    rewrite test_multiple_models_fan_out. simpl. unfold bind.
    rewrite H1, H2. unfold ret. now rewrite insert_insert_eq, insert_empty.
Qed.

End Invokers.

(** ** The pattern *)

Definition head_nondigit (r : string) : Prop :=
  match r with
  | EmptyString => True
  | String c _ => is_digit c = false
  end.

Lemma span_digits_spec (s : string) :
  s = (span_digits s).1 +:+ (span_digits s).2
  /\ all_digits (span_digits s).1 = true
  /\ head_nondigit (span_digits s).2.
Proof.
  induction s as [|c s (E & D & H)]; simpl; [easy|].
  destruct (is_digit c) eqn:Hc; [|simpl; easy].
  destruct (span_digits s) as [d r]. simpl in *. rewrite Hc, <- E. easy.
Qed.

Lemma span_digits_eq (d r : string) :
  all_digits d = true -> head_nondigit r -> span_digits (d +:+ r) = (d, r).
Proof.
  intros D H. induction d as [|c d IH]; simpl in *.
  - destruct r as [|c r]; [reflexivity|]. simpl in *. now rewrite H.
  - apply andb_prop in D as [-> D]. now rewrite (IH D).
Qed.

Lemma span_digits_max (s d r : string) :
  s = d +:+ r -> all_digits d = true ->
  (String.length d <= String.length (span_digits s).1)%nat.
Proof.
  revert s. induction d as [|c d IH]; intros s -> D; simpl in *; [lia|].
  apply andb_prop in D as [-> D]. specialize (IH _ eq_refl D).
  destruct (span_digits (d +:+ r)). simpl in *. lia.
Qed.

Lemma all_digits_append (a b : string) :
  all_digits (a +:+ b) = all_digits a && all_digits b.
Proof. induction a as [|c a IH]; simpl; [reflexivity | now rewrite IH, andb_assoc]. Qed.

(** A run of digits followed by something that is no digit is the whole
    run [span_digits] finds. *)
Lemma span_digits_unique (s d r : string) :
  s = d +:+ r -> all_digits d = true -> head_nondigit r -> span_digits s = (d, r).
Proof. intros -> D H. now apply span_digits_eq. Qed.

Lemma span_digits_nonempty (d r : string) :
  d <> "" -> all_digits d = true -> (span_digits (d +:+ r)).1 <> "".
Proof.
  destruct d as [|c d]; [easy|]. intros _ D. simpl in *.
  apply andb_prop in D as [-> _]. now destruct (span_digits (d +:+ r)).
Qed.

Lemma frac_part_some (r fp r'' : string) :
  frac_part r = Some (fp, r'') ->
  r = "." +:+ fp +:+ r'' /\ fp <> "" /\ all_digits fp = true /\ head_nondigit r''.
Proof.
  destruct r as [|c r']; simpl; [discriminate|].
  destruct (Ascii.eqb_spec c "."); [subst c | discriminate].
  destruct (span_digits_spec r') as (E & D & H).
  destruct (span_digits r') as [[|x d] t]; [discriminate|].
  intros [= <- <-]. simpl in *. rewrite E at 1. easy.
Qed.

Lemma frac_part_dot (fp t : string) :
  fp <> "" -> all_digits fp = true ->
  exists fp' r'', frac_part ("." +:+ fp +:+ t) = Some (fp', r'')
                  /\ span_digits (fp +:+ t) = (fp', r'').
Proof.
  intros N D. simpl.
  pose proof (span_digits_nonempty fp t N D) as Hne.
  destruct (span_digits (fp +:+ t)) as [[|x d] u]; [easy|]. eauto.
Qed.

Lemma match_number_none (s : string) : match_number s = None <-> head_nondigit s.
Proof.
  unfold match_number. destruct s as [|c s]; simpl; [easy|].
  destruct (is_digit c) eqn:Hc; [|easy].
  destruct (span_digits s) as [d r].
  split; [|discriminate]. now destruct (frac_part r) as [[fp r'']|].
Qed.

Lemma is_number_digits (ip : string) : ip <> "" -> all_digits ip = true -> is_number ip.
Proof. intros N D. exists ip. auto. Qed.

Lemma is_number_decimal (ip fp : string) :
  ip <> "" -> all_digits ip = true -> fp <> "" -> all_digits fp = true ->
  is_number (ip +:+ "." +:+ fp).
Proof. intros N D N' D'. exists ip. split; [|split]; eauto. Qed.

(** What [match_number] finds is a number at the start of the string, and
    the longest one there. *)
Lemma match_number_spec (s m r : string) :
  match_number s = Some (m, r) ->
  s = m +:+ r /\ is_number m /\
  forall m' r', s = m' +:+ r' -> is_number m' -> (String.length m' <= String.length m)%nat.
Proof.
  unfold match_number. intros Hm.
  destruct (span_digits_spec s) as (E & D & H).
  pose proof (span_digits_max s) as Hmax.
  pose proof (span_digits_unique s) as Huniq.
  destruct (span_digits s) as [ip r0]. cbn [fst snd] in *.
  assert (N : ip <> "") by (intros ->; discriminate).
  assert (Hm' : match frac_part r0 with
                | Some (fp, r'') => Some (ip +:+ String "." fp, r'')
                | None => Some (ip, r0)
                end = Some (m, r)) by (destruct ip; [easy | exact Hm]).
  clear Hm. rename Hm' into Hm. set (ip0 := ip) in *.
  destruct (frac_part r0) as [[fp r'']|] eqn:F.
  - injection Hm as <- <-.
    destruct (frac_part_some _ _ _ F) as (-> & Nf & Df & Hf).
    split; [now rewrite E, !append_assoc|].
    split; [now apply is_number_decimal|].
    intros m' r' E' (ip' & N' & D' & [->|(fp' & Nf' & Df' & ->)]).
    + specialize (Hmax _ _ E' D'). rewrite !length_append. lia.
    + rewrite !append_assoc in E'.
      assert (U : (ip0, "." +:+ fp +:+ r'') = (ip', "." +:+ fp' +:+ r'))
        by (apply Huniq; [exact E' | exact D' | reflexivity]).
      assert (U1 : ip0 = ip') by congruence.
      assert (U2 : fp +:+ r'' = fp' +:+ r') by (simpl in U; congruence).
      pose proof (span_digits_max _ _ _ U2 Df') as L.
      rewrite (span_digits_eq _ _ Df Hf) in L.
      rewrite <- U1 at 1. rewrite !length_append. simpl in *. lia.
  - injection Hm as <- <-. split; [exact E|].
    split; [now apply is_number_digits|].
    intros m' r' E' (ip' & N' & D' & [->|(fp' & Nf' & Df' & ->)]).
    + now apply (Hmax _ _ E' D').
    + rewrite !append_assoc in E'.
      assert (U : (ip0, r0) = (ip', "." +:+ fp' +:+ r'))
        by (apply Huniq; [exact E' | exact D' | reflexivity]).
      assert (U2 : r0 = "." +:+ fp' +:+ r') by congruence. subst r0.
      destruct (frac_part_dot fp' r' Nf' Df') as (? & ? & F' & _). congruence.
Qed.

Lemma match_number_shorter (s m r : string) :
  match_number s = Some (m, r) -> (String.length r < String.length s)%nat.
Proof.
  intros H. apply match_number_spec in H as (-> & (ip & N & _ & [->|(fp & _ & _ & ->)]) & _);
    rewrite !length_append; destruct ip; simpl; try easy; lia.
Qed.

Lemma findall_from_enough (n k : nat) (s : string) :
  (String.length s <= n)%nat -> (String.length s <= k)%nat ->
  findall_from n s = findall_from k s.
Proof.
  revert k s. induction n as [|n IH]; intros [|k] [|c s] Hn Hk; simpl in *;
    try reflexivity; try lia.
  destruct (match_number (String c s)) as [[m r]|] eqn:Hm.
  - apply match_number_shorter in Hm. simpl in Hm. f_equal. apply IH; lia.
  - apply IH; lia.
Qed.

Lemma findall_unfold (c : ascii) (s : string) :
  findall (String c s) =
  match match_number (String c s) with
  | Some (m, r) => m :: findall r
  | None => findall s
  end.
Proof.
  unfold findall. cbn [String.length findall_from].
  destruct (match_number (String c s)) as [[m r]|] eqn:Hm; [|reflexivity].
  apply match_number_shorter in Hm. simpl in Hm.
  f_equal. apply findall_from_enough; lia.
Qed.

Lemma findall_nondigit (c : ascii) (s : string) :
  is_digit c = false -> findall (String c s) = findall s.
Proof.
  intros H. rewrite findall_unfold.
  now rewrite (proj2 (match_number_none (String c s)) H).
Qed.

Lemma findall_skip (pre s : string) : no_digit pre = true -> findall (pre +:+ s) = findall s.
Proof.
  induction pre as [|c pre IH]; simpl; [reflexivity|].
  intros H. apply andb_prop in H as [Hc H]. apply negb_true_iff in Hc.
  rewrite findall_nondigit by assumption. now apply IH.
Qed.

Lemma findall_no_digit (w : string) : no_digit w = true -> findall w = [].
Proof. intros H. rewrite <- (append_empty_r w). now rewrite findall_skip. Qed.

Lemma match_number_first (m r : string) :
  is_number m ->
  (forall m' r', m +:+ r = m' +:+ r' -> is_number m' ->
                 (String.length m' <= String.length m)%nat) ->
  match_number (m +:+ r) = Some (m, r).
Proof.
  intros Hnum Hlong.
  destruct (match_number (m +:+ r)) as [[m0 r0]|] eqn:Hm.
  - destruct (match_number_spec _ _ _ Hm) as (E & Hnum0 & Hlong0).
    assert (L : String.length m = String.length m0).
    { apply Nat.le_antisymm; [now apply (Hlong0 m r) | now apply (Hlong m0 r0)]. }
    now destruct (append_inj_length _ _ _ _ E L) as [-> ->].
  - apply match_number_none in Hm.
    destruct Hnum as (ip & N & D & [->|(fp & _ & _ & ->)]);
      destruct ip as [|c ip]; try easy; simpl in *;
      apply andb_prop in D as [D _]; congruence.
Qed.

(** The first number of the window is the first string [findall] gives. *)
Lemma findall_first (w m r : string) :
  first_number w m r -> findall w = m :: findall r.
Proof.
  intros (pre & -> & Hpre & Hnum & Hlong).
  rewrite findall_skip by assumption.
  pose proof (match_number_first m r Hnum Hlong) as Hm.
  destruct (m +:+ r) as [|c s] eqn:E.
  - discriminate.
  - now rewrite findall_unfold, Hm.
Qed.

(** ... and a window has a first number as soon as it has a digit. *)
Lemma first_number_exists (w : string) :
  no_digit w = false -> exists m r, first_number w m r.
Proof.
  induction w as [|c w IH]; simpl; [discriminate|].
  destruct (is_digit c) eqn:Hc; simpl.
  - intros _. destruct (match_number (String c w)) as [[m r]|] eqn:Hm.
    + destruct (match_number_spec _ _ _ Hm) as (E & Hnum & Hlong).
      exists m, r, "". simpl. rewrite <- E. repeat split; assumption.
    + apply match_number_none in Hm. simpl in Hm. congruence.
  - intros H. destruct (IH H) as (m & r & pre & -> & Hpre & Hnum & Hlong).
    exists m, r, (String c pre). simpl. rewrite Hc, Hpre. easy.
Qed.

(** ** Floats *)

Lemma shr_1_nonneg (mrs : shr_record) : (0 <= shr_m mrs)%Z -> (0 <= shr_m (shr_1 mrs))%Z.
Proof.
  destruct mrs as [m r s]. simpl.
  destruct m as [|[p|p|]|[p|p|]]; simpl; lia.
Qed.

Lemma iter_pos_nonneg (p : positive) (mrs : shr_record) :
  (0 <= shr_m mrs)%Z -> (0 <= shr_m (SpecFloat.iter_pos shr_1 p mrs))%Z.
Proof.
  revert mrs. induction p as [p IH|p IH|]; intros mrs H; simpl.
  - apply IH, IH, shr_1_nonneg, H.
  - apply IH, IH, H.
  - apply shr_1_nonneg, H.
Qed.

Lemma shr_fexp_nonneg (m e : Z) (l : location) :
  (0 <= m)%Z -> (0 <= shr_m (shr_fexp prec emax m e l).1)%Z.
Proof.
  intros H. unfold shr_fexp, shr.
  assert (H0 : (0 <= shr_m (shr_record_of_loc m l))%Z)
    by (destruct l as [|[]]; exact H).
  destruct (_ - e)%Z; simpl; [exact H0 | now apply iter_pos_nonneg | exact H0].
Qed.

Lemma round_nearest_even_nonneg (m : Z) (l : location) :
  (0 <= m)%Z -> (0 <= round_nearest_even m l)%Z.
Proof.
  intros H. unfold round_nearest_even.
  destruct l as [|[]]; try destruct (Z.even m); lia.
Qed.

(** Rounding a mantissa that is not negative gives a float of the sign
    asked for, never NaN. *)
Lemma binary_round_aux_nonneg (m e : Z) (l : location) :
  (0 <= m)%Z -> nonneg (binary_round_aux prec emax false m e l) = true.
Proof.
  intros H. unfold binary_round_aux.
  pose proof (shr_fexp_nonneg m e l H) as H1.
  destruct (shr_fexp prec emax m e l) as [mrs' e']. simpl in H1.
  pose proof (shr_fexp_nonneg _ e' loc_Exact
                (round_nearest_even_nonneg _ (loc_of_shr_record mrs') H1)) as H2.
  destruct (shr_fexp prec emax _ e' loc_Exact) as [mrs'' e'']. simpl in H2.
  destruct (shr_m mrs'') as [|p|p]; [reflexivity | | lia].
  now destruct (e'' <=? emax - prec)%Z.
Qed.

Lemma div_core_nonneg (m1 e1 m2 e2 : Z) :
  (0 <= m1)%Z -> (0 < m2)%Z ->
  (0 <= (SFdiv_core_binary prec emax m1 e1 m2 e2).1.1)%Z.
Proof.
  intros H1 H2. unfold SFdiv_core_binary.
  set (s := (e1 - e2 - _)%Z).
  set (m' := match s with Zpos _ => Z.shiftl m1 s | Z0 => m1 | Zneg _ => 0%Z end).
  assert (Hm' : (0 <= m')%Z).
  { subst m'. destruct s; [exact H1 | now apply Z.shiftl_nonneg | lia]. }
  pose proof (Z.div_pos m' m2 Hm' H2) as Hq. unfold Z.div in Hq.
  destruct (Z.div_eucl m' m2) as [q r]. exact Hq.
Qed.

Lemma float_of_ratio_nonneg (n d : Z) :
  (0 <= n)%Z -> (0 < d)%Z -> nonneg (float_of_ratio n d) = true.
Proof.
  intros Hn Hd. unfold float_of_ratio. destruct n as [|n|n]; [reflexivity | | lia].
  pose proof (div_core_nonneg (Zpos n) 0 d 0 Hn Hd) as Hq.
  destruct (SFdiv_core_binary prec emax (Zpos n) 0 d 0) as [[q e] l].
  now apply binary_round_aux_nonneg.
Qed.

Lemma lit_values :
  lit "0.0" = S754_zero false
  /\ lit "1.0" = S754_finite false 4503599627370496 (-52)
  /\ lit "4.0" = S754_finite false 4503599627370496 (-50).
Proof. repeat split; vm_compute; reflexivity. Qed.

Lemma fdiv_four_nonneg (x : spec_float) :
  nonneg x = true -> nonneg (fdiv x (lit "4.0")) = true.
Proof.
  destruct lit_values as (_ & _ & ->).
  destruct x as [[]|[]| |[] m e]; try discriminate; intros _; try reflexivity.
  unfold fdiv, SFdiv.
  pose proof (div_core_nonneg (Zpos m) e 4503599627370496 (-50)
                ltac:(lia) ltac:(lia)) as Hq.
  destruct (SFdiv_core_binary prec emax (Zpos m) e 4503599627370496 (-50)) as [[q e'] l].
  now apply binary_round_aux_nonneg.
Qed.

Lemma SFcompare_antisym (x y : spec_float) :
  SFcompare y x = option_map CompOpp (SFcompare x y).
Proof.
  destruct x as [[]|[]| |[] m e], y as [[]|[]| |[] m' e']; try reflexivity; simpl;
    rewrite (Z.compare_antisym e e'); destruct (e ?= e')%Z; simpl; try reflexivity;
    rewrite (Pos.compare_cont_antisym m m' Eq); simpl;
    now destruct (Pos.compare_cont Eq m m').
Qed.

Lemma SFcompare_finite (m : positive) (e : Z) (m' : positive) (e' : Z) :
  exists c, SFcompare (S754_finite false m e) (S754_finite false m' e') = Some c.
Proof. simpl. eauto. Qed.

(** On floats that are neither negative nor NaN the nested [max] and [min]
    of the source clamp. *)
Lemma max_min_finite (m1 : positive) (e1 : Z) (x : spec_float) :
  let zero := S754_zero false in
  let one := S754_finite false m1 e1 in
  nonneg x = true ->
  py_max zero (py_min one x) =
  (if SFleb x zero then zero else if SFleb one x then one else x)
  /\ SFleb zero (py_max zero (py_min one x)) = true
  /\ SFleb (py_max zero (py_min one x)) one = true.
Proof.
  cbv zeta. unfold py_max, py_min.
  assert (R : SFleb (S754_finite false m1 e1) (S754_finite false m1 e1) = true).
  { unfold SFleb. simpl. rewrite Z.compare_refl, Pos.compare_cont_refl. reflexivity. }
  destruct x as [[]|[]| |[] m e]; try discriminate; intros _;
    try (repeat split; first [reflexivity | exact R]).
  unfold SFltb, SFleb.
  rewrite (SFcompare_antisym (S754_finite false m e) (S754_finite false m1 e1)).
  destruct (SFcompare_finite m e m1 e1) as [c E]. rewrite E.
  change (SFcompare (S754_finite false m e) (S754_zero false)) with (Some Gt).
  fold (SFleb (S754_finite false m1 e1) (S754_finite false m1 e1)).
  destruct c; cbn [option_map CompOpp];
    change (SFcompare (S754_zero false) (S754_finite false m1 e1)) with (Some Lt);
    change (SFcompare (S754_zero false) (S754_finite false m e)) with (Some Lt);
    cbv iota; rewrite ?E; repeat split; try reflexivity; exact R.
Qed.

Lemma py_max_min_clamp (x : spec_float) :
  nonneg x = true -> py_max (lit "0.0") (py_min (lit "1.0") x) = clamp01 x.
Proof.
  unfold clamp01. destruct lit_values as (-> & -> & _).
  intros H. now destruct (max_min_finite 4503599627370496 (-52) x H).
Qed.

Lemma py_max_min_bounds (x : spec_float) :
  nonneg x = true ->
  SFleb (lit "0.0") (py_max (lit "0.0") (py_min (lit "1.0") x)) = true
  /\ SFleb (py_max (lit "0.0") (py_min (lit "1.0") x)) (lit "1.0") = true.
Proof.
  destruct lit_values as (-> & -> & _).
  intros H. now destruct (max_min_finite 4503599627370496 (-52) x H).
Qed.

Lemma nonneg_eq_zero (x : spec_float) :
  nonneg x = true -> SFeqb x (lit "0.0") = true -> x = lit "0.0".
Proof.
  destruct lit_values as (-> & _).
  destruct x as [[]|[]| |[] m e]; try discriminate; reflexivity.
Qed.

(** ** The score extractor *)

Lemma digits_value_nonneg (acc : Z) (s : string) :
  (0 <= acc)%Z -> (0 <= digits_value acc s)%Z.
Proof.
  revert acc. induction s as [|c s IH]; intros acc H; simpl; [exact H|].
  apply IH. lia.
Qed.

Lemma parse_decimal_sign (s : string) (n d : Z) :
  parse_decimal s = Some (n, d) -> (0 <= n)%Z /\ (0 < d)%Z.
Proof.
  unfold parse_decimal. destruct (span_digits s) as [[|c ip] r]; [discriminate|].
  destruct r as [|x r].
  - intros [= <- <-]. split; [apply digits_value_nonneg|]; lia.
  - destruct (frac_part (String x r)) as [[fp [|y t]]|]; try discriminate.
    intros [= <- <-]. split; [apply digits_value_nonneg; lia|].
    apply Z.pow_pos_nonneg; lia.
Qed.

Lemma py_float_nonneg (s : string) (f : spec_float) :
  py_float s = Ok f -> nonneg f = true.
Proof.
  unfold py_float. destruct (parse_decimal s) as [[n d]|] eqn:P; [|discriminate].
  intros [= <-]. destruct (parse_decimal_sign _ _ _ P). now apply float_of_ratio_nonneg.
Qed.

Lemma span_digits_all (d : string) : all_digits d = true -> span_digits d = (d, "").
Proof.
  intros D. pose proof (span_digits_eq d "" D I) as H.
  now rewrite append_empty_r in H.
Qed.

Lemma parse_decimal_number (m : string) :
  is_number m -> exists n d, parse_decimal m = Some (n, d).
Proof.
  intros (ip & N & D & [->|(fp & Nf & Df & ->)]); unfold parse_decimal.
  - rewrite (span_digits_all ip D).
    destruct ip; [easy | eauto].
  - rewrite (span_digits_eq ip ("." +:+ fp) D eq_refl).
    destruct ip as [|c ip]; [easy|].
    change ("." +:+ fp) with (String "." fp).
    cbn [frac_part]. rewrite Ascii.eqb_refl.
    rewrite (span_digits_all fp Df).
    destruct fp; [easy | eauto].
Qed.

Lemma py_float_number (m : string) : is_number m -> exists f, py_float m = Ok f.
Proof.
  intros H. destruct (parse_decimal_number m H) as (n & d & P).
  unfold py_float. rewrite P. eauto.
Qed.

Fixpoint no_space (s : string) : bool :=
  match s with
  | EmptyString => true
  | String c s' => negb (is_space c) && no_space s'
  end.

Lemma no_space_append (a b : string) : no_space (a +:+ b) = no_space a && no_space b.
Proof. induction a as [|c a IH]; simpl; [reflexivity | now rewrite IH, andb_assoc]. Qed.

Lemma digit_not_space (c : ascii) : is_digit c = true -> is_space c = false.
Proof.
  unfold is_digit, is_space. intros H. apply andb_prop in H as [H1 H2].
  apply Nat.leb_le in H1, H2.
  repeat match goal with
         | |- context [(?a <=? ?b)%nat] => destruct (Nat.leb_spec a b)
         | |- context [(?a =? ?b)%nat] => destruct (Nat.eqb_spec a b)
         end; simpl; try reflexivity; lia.
Qed.

Lemma all_digits_no_space (s : string) : all_digits s = true -> no_space s = true.
Proof.
  induction s as [|c s IH]; simpl; [reflexivity|].
  intros H. apply andb_prop in H as [Hc H]. now rewrite (digit_not_space c Hc), IH.
Qed.

Lemma is_number_no_space (m : string) : is_number m -> no_space m = true.
Proof.
  intros (ip & N & D & [->|(fp & Nf & Df & ->)]).
  - now apply all_digits_no_space.
  - rewrite !no_space_append, (all_digits_no_space ip D), (all_digits_no_space fp Df).
    reflexivity.
Qed.

Lemma strip_no_space (m : string) : no_space m = true -> strip m = m.
Proof.
  intros H. symmetry. apply trimmed_strip. exists "", "".
  rewrite append_empty_r. repeat split.
  - intros c u ->. simpl in H. apply andb_prop in H as [H _]. now apply negb_true_iff.
  - intros u c ->. rewrite no_space_append in H. simpl in H.
    apply andb_prop in H as [_ H]. apply andb_prop in H as [H _]. now apply negb_true_iff.
Qed.

(** Every string [findall] gives is a number. *)
Lemma findall_numbers (s : string) : Forall is_number (findall s).
Proof.
  remember (String.length s) as n eqn:Hn. revert s Hn.
  induction n as [n IH] using lt_wf_ind. intros [|c s] ->; [constructor|].
  rewrite findall_unfold.
  destruct (match_number (String c s)) as [[m r]|] eqn:Hm.
  - constructor; [now apply match_number_spec in Hm|].
    eapply IH; [|reflexivity]. now apply match_number_shorter in Hm.
  - eapply IH; [|reflexivity]. simpl. lia.
Qed.

Lemma map_strip_findall (w : string) : map strip (findall w) = findall w.
Proof.
  induction (findall_numbers w) as [|m l Hm _ IH]; simpl; [reflexivity|].
  now rewrite IH, strip_no_space by now apply is_number_no_space.
Qed.

Lemma contains_empty (s : string) : contains "" s = true.
Proof. now destruct s. Qed.

Lemma rating_window_absent (answer split_str : string) :
  contains split_str answer = false -> rating_window answer split_str = Ok answer.
Proof. unfold rating_window. now intros ->. Qed.

Lemma rating_window_empty_marker (answer : string) :
  rating_window answer "" = Raise (mk_exn ValueError "empty separator").
Proof. unfold rating_window. now rewrite contains_empty. Qed.

Lemma rating_window_present (answer split_str b a : string) :
  split_str <> "" -> partition split_str answer = Some (b, a) ->
  rating_window answer split_str =
  Ok match partition split_str a with
     | Some (w, _) => w
     | None => a
     end.
Proof.
  intros N P. unfold rating_window.
  assert (C : contains split_str answer = true).
  { destruct (contains split_str answer) eqn:C; [reflexivity|].
    apply partition_none in C. congruence. }
  rewrite C. unfold split. destruct split_str as [|x sep]; [easy|].
  cbn [rbind]. rewrite split_from_unfold, P by assumption.
  rewrite split_from_unfold by assumption.
  now destruct (partition (String x sep) a) as [[w a']|].
Qed.

Lemma raw_score_window (answer split_str w : string) :
  rating_window answer split_str = Ok w ->
  raw_score answer split_str =
  (first <~ list_item (findall w) 0 ;; py_float first).
Proof. unfold raw_score. intros ->. cbn [rbind]. now rewrite map_strip_findall. Qed.

Lemma raw_score_nonneg (answer split_str : string) (r : spec_float) :
  raw_score answer split_str = Ok r -> nonneg r = true.
Proof.
  unfold raw_score.
  destruct (rating_window answer split_str) as [w|e]; [|discriminate]. cbn [rbind].
  destruct (list_item _ 0) as [first|e]; [|discriminate]. cbn [rbind].
  apply py_float_nonneg.
Qed.

Section Extractor.
Context {world : Type}.

Lemma extract_ok (answer split_str : string) (r : spec_float) (st : interp world) :
  raw_score answer split_str = Ok r ->
  _extract_judge_score answer split_str st = (Ok (PFloat (rescale r)), st).
Proof.
  intros H. unfold _extract_judge_score, try_except, bind, lift, ret. now rewrite H.
Qed.

Lemma extract_error (answer split_str : string) (e : exn) (st : interp world) :
  raw_score answer split_str = Raise e ->
  _extract_judge_score answer split_str st =
  (Ok (PInt 0), mk_interp (net st) (sent st) (stdout st ++ [exn_str e])).
Proof.
  intros H. unfold _extract_judge_score, try_except, bind, lift, ret, print.
  now rewrite H, isinstance_Exception.
Qed.
End Extractor.

Section ExtractorClaims.
Context {world : Type}.

(** C1.  When a raw rating [r] is extracted, the score is exactly [0.0]
    for [r = 0] and otherwise [r / 4.0] clamped to the closed interval
    from 0 to 1, so it is never above [1.0]: a rating of 4 gives [1.0],
    of 2.5 gives [0.625], of 10 gives [1.0]. *)
Theorem extract_judge_score_rescales (answer split_str : string) (st : interp world) :
  (forall r, raw_score answer split_str = Ok r ->
     exists f,
       _extract_judge_score answer split_str st = (Ok (PFloat f), st)
       /\ f = (if SFeqb r (lit "0.0") then lit "0.0" else clamp01 (fdiv r (lit "4.0")))
       /\ SFleb (lit "0.0") f = true /\ SFleb f (lit "1.0") = true)
  /\ _extract_judge_score "Evaluation: good.
Total rating: 4" default_split_str st = (Ok (PFloat (lit "1.0")), st)
  /\ _extract_judge_score "Total rating: 0" default_split_str st
     = (Ok (PFloat (lit "0.0")), st)
  /\ _extract_judge_score "Total rating: 2.5" default_split_str st
     = (Ok (PFloat (lit "0.625")), st)
  /\ _extract_judge_score "Total rating: 10" default_split_str st
     = (Ok (PFloat (lit "1.0")), st).
Proof.
  split; [|split; [|split; [|split]]].
  - intros r H. pose proof (raw_score_nonneg _ _ _ H) as Hr.
    exists (rescale r). split; [now apply extract_ok|]. unfold rescale.
    destruct (SFeqb r (lit "0.0")) eqn:Hz.
    + rewrite (nonneg_eq_zero r Hr Hz). repeat split; vm_compute; reflexivity.
    + pose proof (fdiv_four_nonneg r Hr) as Hq.
      split; [now apply py_max_min_clamp|]. now apply py_max_min_bounds.
  - rewrite (extract_ok _ _ (lit "4")) by (vm_compute; reflexivity).
    apply (f_equal (fun f => (Ok (PFloat f), st))). vm_compute. reflexivity.
  - rewrite (extract_ok _ _ (lit "0")) by (vm_compute; reflexivity).
    apply (f_equal (fun f => (Ok (PFloat f), st))). vm_compute. reflexivity.
  - rewrite (extract_ok _ _ (lit "2.5")) by (vm_compute; reflexivity).
    apply (f_equal (fun f => (Ok (PFloat f), st))). vm_compute. reflexivity.
  - rewrite (extract_ok _ _ (lit "10")) by (vm_compute; reflexivity).
    apply (f_equal (fun f => (Ok (PFloat f), st))). vm_compute. reflexivity.
Qed.

(** C5.  The extractor never raises.  Whatever goes wrong in the
    extraction, and in particular a window without a number, is printed,
    and the result is then [0], which equals [0.0]. *)
Theorem extract_judge_score_never_raises (answer split_str : string) (st : interp world) :
  let run := _extract_judge_score answer split_str st in
  let printed line := mk_interp (net st) (sent st) (stdout st ++ [line]) in
  (exists v, run.1 = Ok v)
  /\ (forall e, raw_score answer split_str = Raise e ->
        run = (Ok (PInt 0), printed (exn_str e)))
  /\ (forall w, rating_window answer split_str = Ok w -> no_digit w = true ->
        findall w = [] /\ run = (Ok (PInt 0), printed "list index out of range"))
  /\ num_eq (PInt 0) (PFloat (lit "0.0")) = true
  /\ _extract_judge_score "no rating given" default_split_str st
     = (Ok (PInt 0), printed "list index out of range").
Proof.
  cbv zeta. split; [|split; [|split; [|split]]].
  - destruct (raw_score answer split_str) as [r|e] eqn:H.
    + rewrite (extract_ok _ _ _ st H). eauto.
    + rewrite (extract_error _ _ _ st H). eauto.
  - intros e H. now apply extract_error.
  - intros w Hw Hd. pose proof (findall_no_digit w Hd) as Hf.
    split; [exact Hf|].
    apply (extract_error _ _ (mk_exn IndexError "list index out of range")).
    rewrite (raw_score_window _ _ _ Hw), Hf. reflexivity.
  - reflexivity.
  - apply (extract_error _ _ (mk_exn IndexError "list index out of range")).
    vm_compute. reflexivity.
Qed.

(** C7.  With an invocation function that always answers
    ["Evaluation: fine\nTotal rating: 3"], the comparator returns [0.75]
    whatever the three texts are. *)
Theorem compare_with_constant_judge
    (test_prompt_func : string -> string -> string -> M world string) :
  (forall url prompt model st,
     (test_prompt_func url prompt model st).1 = Ok "Evaluation: fine
Total rating: 3") ->
  forall llm_output expected_output original_instruction url model st,
    (compare_strings_with_llm_judge llm_output expected_output original_instruction
       test_prompt_func url model st).1 = Ok (PFloat (lit "0.75")).
Proof.
  intros Hstub llm_output expected_output original_instruction url model st.
  unfold compare_strings_with_llm_judge. cbv zeta. unfold try_except.
  rewrite bind_run.
  specialize (Hstub url (judge_prompt original_instruction llm_output expected_output)
                model st).
  destruct (test_prompt_func url _ model st) as [[reply|e] st1]; simpl in Hstub;
    [|discriminate].
  injection Hstub as ->. rewrite bind_run.
  rewrite (extract_ok _ _ (lit "3")) by (vm_compute; reflexivity).
  unfold ret. cbn [fst]. vm_compute. reflexivity.
Qed.

(** C10.  The pattern reads unsigned numbers only: what [findall] gives
    holds no sign, and a minus sign in front of the text changes nothing.
    For ["Total rating: -3"] the raw score is 3 and the result [0.75],
    where a rating of -3 would have been clamped to [0.0]. *)
Theorem minus_sign_is_dropped (st : interp world) :
  (forall w, Forall is_number (findall w))
  /\ (forall w, findall ("-" +:+ w) = findall w)
  /\ raw_score "Total rating: -3" default_split_str = Ok (lit "3")
  /\ _extract_judge_score "Total rating: -3" default_split_str st
     = (Ok (PFloat (lit "0.75")), st)
  /\ py_max (lit "0.0") (py_min (lit "1.0") (fdiv (SFopp (lit "3")) (lit "4.0")))
     = lit "0.0".
Proof.
  split; [|split; [|split; [|split]]].
  - apply findall_numbers.
  - intros w. now apply findall_nondigit.
  - vm_compute. reflexivity.
  - rewrite (extract_ok _ _ (lit "3")) by (vm_compute; reflexivity).
    apply (f_equal (fun f => (Ok (PFloat f), st))). vm_compute. reflexivity.
  - vm_compute. reflexivity.
Qed.
End ExtractorClaims.

(** A judge that always gives the same answer. *)
Definition constant_judge : string -> string -> string -> M unit string :=
  fun _ _ _ => ret "Evaluation: fine
Total rating: 3".

Lemma compare_with_constant_judge_witness :
  (forall url prompt model st,
     (constant_judge url prompt model st).1 = Ok "Evaluation: fine
Total rating: 3")
  /\ (compare_strings_with_llm_judge "Lyon" "Paris" "Name the capital of France."
        constant_judge "http://localhost:11434/api/generate" "judge"
        (mk_interp tt [] [])).1 = Ok (PFloat (lit "0.75")).
Proof.
  split; [reflexivity|].
  apply (compare_with_constant_judge constant_judge). reflexivity.
Defined.

(** ** The window of the extractor *)

(** The window the specification describes: all that follows the first
    occurrence of the marker. *)
Definition window_after_first (answer split_str : string) : string :=
  match partition split_str answer with
  | Some (_, a) => a
  | None => answer
  end.

(** C2, as stated, fails when the marker occurs twice: the window ends at
    the second occurrence.  Here the rest of the answer holds the rating 3,
    the window holds no number, and the score is the [0] of the failure
    path. *)
Lemma window_is_not_all_after_first_marker :
  let answer := "Total rating: see below. Total rating: 3" in
  contains default_split_str answer = true
  /\ window_after_first answer default_split_str = " see below. Total rating: 3"
  /\ rating_window answer default_split_str = Ok " see below. "
  /\ rating_window answer default_split_str
     <> Ok (window_after_first answer default_split_str)
  /\ findall (window_after_first answer default_split_str) = ["3"]
  /\ raw_score answer default_split_str
     = Raise (mk_exn IndexError "list index out of range").
Proof.
  cbv zeta. split; [|split; [|split; [|split; [|split]]]];
    try (vm_compute; reflexivity).
  vm_compute. discriminate.
Qed.

(** C2, amended.  For a marker that is not empty: without the marker the
    window is the whole answer; with it, the window starts after the first
    occurrence and ends before the next one, or at the end of the answer
    when there is no other.  The raw score is the value of the first
    number of the window; a window without a digit has none. *)
Theorem rating_window_between_markers (answer split_str : string) :
  split_str <> "" ->
  (contains split_str answer = false -> rating_window answer split_str = Ok answer)
  /\ (forall b a, first_at split_str answer b a ->
        (contains split_str a = false -> rating_window answer split_str = Ok a)
        /\ (forall w a', first_at split_str a w a' ->
              rating_window answer split_str = Ok w))
  /\ (forall w, rating_window answer split_str = Ok w ->
        (forall m r, first_number w m r ->
           exists f, py_float m = Ok f /\ raw_score answer split_str = Ok f)
        /\ (no_digit w = true ->
            raw_score answer split_str
            = Raise (mk_exn IndexError "list index out of range"))
        /\ (no_digit w = false -> exists m r, first_number w m r)).
Proof.
  intros N. split; [apply rating_window_absent|]. split.
  - intros b a F. apply first_at_partition in F.
    rewrite (rating_window_present _ _ _ _ N F). split.
    + intros C. apply partition_none in C. now rewrite C.
    + intros w a' F'. apply first_at_partition in F'. now rewrite F'.
  - intros w Hw. rewrite (raw_score_window _ _ _ Hw). split.
    + intros m r Hfirst. rewrite (findall_first _ _ _ Hfirst). cbn.
      destruct Hfirst as (_ & _ & _ & Hnum & _).
      destruct (py_float_number m Hnum) as [f Hf]. eauto.
    + split; [|apply first_number_exists].
      intros Hd. now rewrite (findall_no_digit w Hd).
Qed.

Lemma rating_window_between_markers_witness :
  default_split_str <> ""
  /\ first_at default_split_str "Evaluation: fine. Total rating: 3 of 4. Total rating: 2"
       "Evaluation: fine. " " 3 of 4. Total rating: 2"
  /\ first_at default_split_str " 3 of 4. Total rating: 2" " 3 of 4. " " 2"
  /\ rating_window "Evaluation: fine. Total rating: 3 of 4. Total rating: 2"
       default_split_str = Ok " 3 of 4. ".
Proof.
  assert (N : default_split_str <> "") by discriminate.
  assert (F1 : first_at default_split_str
                 "Evaluation: fine. Total rating: 3 of 4. Total rating: 2"
                 "Evaluation: fine. " " 3 of 4. Total rating: 2")
    by (apply partition_first; vm_compute; reflexivity).
  assert (F2 : first_at default_split_str " 3 of 4. Total rating: 2" " 3 of 4. " " 2")
    by (apply partition_first; vm_compute; reflexivity).
  split; [exact N|]. split; [exact F1|]. split; [exact F2|].
  exact (proj2 (proj1 (proj2 (rating_window_between_markers
            "Evaluation: fine. Total rating: 3 of 4. Total rating: 2"
            default_split_str N)) _ _ F1) _ _ F2).
Defined.

(** ** The variable validator *)

Definition node_ind' (P : node -> Prop)
    (HName : forall name, P (Name name))
    (HOther : forall children, Forall P children -> P (Other children)) :
    forall n, P n :=
  fix IH (n : node) : P n :=
    match n with
    | Name name => HName name
    | Other children =>
        HOther children
          ((fix all (cs : list node) : Forall P cs :=
              match cs with
              | [] => @List.Forall_nil node P
              | c :: cs' => @List.Forall_cons node P c cs' (IH c) (all cs')
              end) children)
    end.

Definition visit_children (cs : list node) (vars : gset string) : gset string :=
  fold_left (fun acc c => visit_node c acc) cs vars.

Lemma visit_node_Other (children : list node) (vars : gset string) :
  visit_node (Other children) vars = visit_children children vars.
Proof.
  unfold visit_children. simpl. revert vars.
  induction children as [|c cs IH]; intros vars; simpl; [reflexivity | apply IH].
Qed.

Lemma visit_node_spec (n : node) (vars : gset string) (name : string) :
  name ∈ visit_node n vars <-> occurs name n \/ name ∈ vars.
Proof.
  revert vars. induction n as [x|children IH] using node_ind'; intros vars.
  - simpl. rewrite elem_of_union, elem_of_singleton. split.
    + intros [->|H]; [left; constructor | now right].
    + intros [H|H]; [inversion H; now left | now right].
  - rewrite visit_node_Other. unfold visit_children.
    assert (G : forall vars,
               name ∈ fold_left (fun acc c => visit_node c acc) children vars
               <-> (exists c, c ∈ children /\ occurs name c) \/ name ∈ vars).
    { clear vars. induction IH as [|c cs Hc _ IHcs]; intros vars; simpl.
      - split; [now right | intros [(c & Hc & _)|H]; [now apply elem_of_nil in Hc | exact H]].
      - rewrite IHcs, Hc. split.
        + intros [(c' & Hin & Ho)|[Ho|Hv]].
          * left. exists c'. split; [apply elem_of_cons; now right | exact Ho].
          * left. exists c. split; [apply elem_of_cons; now left | exact Ho].
          * now right.
        + intros [(c' & Hin & Ho)|Hv]; [|now right; right].
          apply elem_of_cons in Hin as [->|Hin]; [right; now left|].
          left. eauto. }
    rewrite G. split.
    + intros [(c & Hin & Ho)|H]; [left; econstructor; eassumption | now right].
    + intros [H|H]; [|now right]. inversion H; subst. left. eauto.
Qed.

Definition satisfied_b (d : gmap string pyval) (name : string) : bool :=
  match d !! name with
  | Some x => negb (eq_str x "") && negb (is_none x)
  | None => false
  end.

Lemma eq_str_empty (x : pyval) : eq_str x "" = true <-> x = PStr "".
Proof.
  destruct x as [| | | |s| |]; simpl; try (split; [discriminate | intros [=]]).
  rewrite String.eqb_eq. split; [now intros -> | now intros [= ->]].
Qed.

Lemma is_none_true (x : pyval) : is_none x = true <-> x = PNone.
Proof. destruct x; simpl; split; try discriminate; try reflexivity; intros [=]. Qed.

Lemma satisfied_b_spec (d : gmap string pyval) (name : string) :
  satisfied_b d name = true <-> satisfied d name.
Proof.
  unfold satisfied_b, satisfied. destruct (d !! name) as [x|].
  - rewrite andb_true_iff, !negb_true_iff.
    split.
    + intros [H1 H2]. exists x. split; [reflexivity|]. split.
      * intros E. apply eq_str_empty in E. congruence.
      * intros E. apply is_none_true in E. congruence.
    + intros (y & [= <-] & H1 & H2). split.
      * destruct (eq_str x "") eqn:E; [|reflexivity]. now apply eq_str_empty in E.
      * destruct (is_none x) eqn:E; [|reflexivity]. now apply is_none_true in E.
  - split; [discriminate | intros (x & [=] & _)].
Qed.

Lemma missing_or_empty_dict (d : gmap string pyval) (name : string) :
  missing_or_empty (PDict d) name = Ok (negb (satisfied_b d name)).
Proof.
  unfold missing_or_empty, satisfied_b. case_bool_decide as Hdom.
  - apply not_elem_of_dom in Hdom. now rewrite Hdom.
  - apply elem_of_dom in Hdom as [x Hx].
    simpl. rewrite Hx. cbn [rbind].
    destruct (eq_str x ""); [reflexivity|]. cbn [rbind negb andb].
    now destruct (is_none x).
Qed.

(** The loop stops at the first variable that is not satisfied. *)
Lemma validate_loop_spec (d : gmap string pyval) (vars : list string) :
  (Forall (satisfied d) vars /\ validate_loop (PDict d) vars = Ok (true, ""))
  \/ (exists pre v post,
        vars = pre ++ v :: post /\ Forall (satisfied d) pre /\ ~ satisfied d v
        /\ validate_loop (PDict d) vars = Ok (false, v)).
Proof.
  induction vars as [|x vars IH]; [left; split; [constructor | reflexivity]|].
  cbn [validate_loop]. rewrite missing_or_empty_dict. cbn [rbind].
  destruct (satisfied_b d x) eqn:Hx; cbn [negb].
  - apply satisfied_b_spec in Hx.
    destruct IH as [[Hall ->]|(pre & v & post & -> & Hpre & Hv & ->)].
    + left. split; [now constructor | reflexivity].
    + right. exists (x :: pre), v, post.
      split; [reflexivity|]. split; [now constructor|]. split; [exact Hv | reflexivity].
  - right. exists [], x, vars.
    split; [reflexivity|]. split; [constructor|]. split; [|reflexivity].
    intros H. apply satisfied_b_spec in H. congruence.
Qed.

Section Validator.
Variable json_loads : string -> result pyval.
Variable jinja_parse : string -> result node.
Variable set_order : gset string -> list string.
Hypothesis set_order_elements : forall s x, x ∈ set_order s <-> x ∈ s.

(** C6.  For a valid template and a mapping, given as such or as the
    JSON text of it, the validator answers [(True, "")] exactly when the
    mapping binds every variable of the template to a value that is
    neither the empty string nor [None]; otherwise it answers [False]
    with the first variable, in the order the set of variables is
    iterated, that fails this. *)
Theorem validate_variables_with_template_spec
    (d : gmap string pyval) (template_str : string) (ast : node) :
  jinja_parse template_str = Ok ast ->
  let template_vars := set_order (visit_node ast ∅) in
  let run := validate_variables_with_template json_loads jinja_parse set_order
               (PDict d) template_str in
  (forall name, name ∈ template_vars <-> occurs name ast)
  /\ (run = Ok (true, "") <-> forall name, occurs name ast -> satisfied d name)
  /\ (run <> Ok (true, "") ->
      exists pre v post,
        template_vars = pre ++ v :: post /\ Forall (satisfied d) pre
        /\ ~ satisfied d v /\ run = Ok (false, v))
  /\ (forall s, json_loads s = Ok (PDict d) ->
        validate_variables_with_template json_loads jinja_parse set_order
          (PStr s) template_str = run).
Proof.
  intros Hparse. cbv zeta.
  assert (Hvars : forall name,
             name ∈ set_order (visit_node ast ∅) <-> occurs name ast).
  { intros name. rewrite set_order_elements, visit_node_spec. set_solver. }
  assert (Hrun : validate_variables_with_template json_loads jinja_parse set_order
                   (PDict d) template_str
                 = validate_loop (PDict d) (set_order (visit_node ast ∅))).
  { unfold validate_variables_with_template, get_template_variables.
    now rewrite Hparse. }
  rewrite Hrun. split; [exact Hvars|]. split; [|split].
  - destruct (validate_loop_spec d (set_order (visit_node ast ∅)))
      as [[Hall ->]|(pre & v & post & E & Hpre & Hv & ->)].
    + split; [|reflexivity]. intros _ name Ho.
      rewrite Forall_forall in Hall. apply Hall, Hvars, Ho.
    + split; [discriminate|]. intros Hall. exfalso. apply Hv, Hall, Hvars.
      rewrite E. apply elem_of_app. right. apply elem_of_cons. now left.
  - destruct (validate_loop_spec d (set_order (visit_node ast ∅)))
      as [[Hall ->]|(pre & v & post & E & Hpre & Hv & ->)]; [easy|].
    intros _. exists pre, v, post. easy.
  - intros s Hs. unfold validate_variables_with_template, get_template_variables.
    now rewrite Hs, Hparse.
Qed.
End Validator.

Definition greeting : string := "Hello {{ name }} from {{ city }}".

(** The tree of [greeting]: one output node over two pieces of text and
    two names. *)
Definition greeting_ast : node :=
  Other [Other [Other []; Name "name"; Other []; Name "city"]].

(** A parser that knows [greeting] only. *)
Definition parse_greeting (template_str : string) : result node :=
  if String.eqb template_str greeting then Ok greeting_ast
  else Raise (mk_exn TemplateSyntaxError "unexpected end of template").

Lemma occurs_leaf (name : string) : ~ occurs name (Other []).
Proof. intros H. inversion H as [|cs c Hc _]. now apply elem_of_nil in Hc. Qed.

Lemma occurs_greeting (name : string) :
  occurs name greeting_ast -> name = "name" \/ name = "city".
Proof.
  intros H. inversion H as [|cs c Hc Ho]; subst.
  apply elem_of_cons in Hc as [->|Hc]; [|now apply elem_of_nil in Hc].
  inversion Ho as [|cs c Hc Ho']; subst.
  apply elem_of_cons in Hc as [->|Hc]; [now apply occurs_leaf in Ho'|].
  apply elem_of_cons in Hc as [->|Hc]; [inversion Ho'; now left|].
  apply elem_of_cons in Hc as [->|Hc]; [now apply occurs_leaf in Ho'|].
  apply elem_of_cons in Hc as [->|Hc]; [inversion Ho'; now right|].
  now apply elem_of_nil in Hc.
Qed.

Lemma validate_variables_with_template_witness :
  (forall (s : gset string) x, x ∈ elements s <-> x ∈ s)
  /\ parse_greeting greeting = Ok greeting_ast
  /\ validate_variables_with_template (fun _ => Ok PNone) parse_greeting elements
       (PDict (dict [("name", PStr "Ada"); ("city", PStr "Paris")])) greeting
     = Ok (true, "").
Proof.
  assert (Horder : forall (s : gset string) x, x ∈ elements s <-> x ∈ s)
    by (intros s x; apply elem_of_elements).
  split; [exact Horder|]. split; [reflexivity|].
  apply (proj1 (proj2 (validate_variables_with_template_spec
                         (fun _ => Ok PNone) parse_greeting elements Horder
                         (dict [("name", PStr "Ada"); ("city", PStr "Paris")])
                         greeting greeting_ast eq_refl))).
  intros name H. destruct (occurs_greeting name H) as [-> | ->].
  - exists (PStr "Ada"). split; [vm_compute; reflexivity|]. split; discriminate.
  - exists (PStr "Paris"). split; [vm_compute; reflexivity|]. split; discriminate.
Defined.

(** ** The invokers on a scripted network *)

(** The world is the list of the outcomes still to come, one for each
    POST; past its end the host cannot be reached. *)
Definition scripted (req : request) (w : list (result string))
    : result string * list (result string) :=
  match w with
  | r :: w' => (r, w')
  | [] => (Raise (mk_exn ClientError "Cannot connect to host"), [])
  end.

Definition quoted (s : string) : string := String "034" (s +:+ String "034" "").

Definition body_paris : string :=
  "{" +:+ quoted "response" +:+ ": " +:+ quoted "Paris" +:+ "}".

(** [json.loads] on the three bodies used below: an object with a
    ["response"] field, the empty object, and a text that is no JSON. *)
Definition loads_three (s : string) : result pyval :=
  if String.eqb s body_paris then Ok (PDict (dict [("response", PStr "Paris")]))
  else if String.eqb s "{}" then Ok (PDict ∅)
  else Raise (mk_exn JSONDecodeError "Expecting value: line 1 column 1 (char 0)").

Definition start (w : list (result string)) : interp (list (result string)) :=
  mk_interp w [] [].

Example invoker_success :
  (test_prompt_with_model scripted loads_three "http://a/api/generate" "Capital?" "m1"
     (start [Ok body_paris])).1 = Ok (PStr "Paris").
Proof. vm_compute. reflexivity. Qed.

Example invoker_network_failure :
  (test_prompt_with_model scripted loads_three "http://a/api/generate" "Capital?" "m1"
     (start [])).1 = Ok (PStr "Error: Cannot connect to host").
Proof. vm_compute. reflexivity. Qed.

Example invoker_malformed_json :
  (test_prompt_with_model scripted loads_three "http://a/api/generate" "Capital?" "m1"
     (start [Ok "<html>"])).1
  = Ok (PStr "Error: Expecting value: line 1 column 1 (char 0)").
Proof. vm_compute. reflexivity. Qed.

Example invoker_missing_field :
  (test_prompt_with_model scripted loads_three "http://a/api/generate" "Capital?" "m1"
     (start [Ok "{}"])).1 = Ok (PStr "Error: 'response'").
Proof. vm_compute. reflexivity. Qed.

(** One failing call leaves the other results in place. *)
Example fan_out_with_one_failure :
  (test_multiple_models scripted loads_three ["http://a"; "http://b"] "Capital?"
     ["m1"; "m2"] (start [Ok "<html>"; Ok body_paris])).1
  = Ok (dict [("m1", PStr "Error: Expecting value: line 1 column 1 (char 0)");
              ("m2", PStr "Paris")]).
Proof. vm_compute. reflexivity. Qed.

Example fan_out_truncates :
  sent (test_multiple_models scripted loads_three ["http://a"; "http://b"; "http://c"]
          "Capital?" ["m1"; "m2"] (start [])).2
  = [mk_request "http://a" (completion_body "Capital?" "m1");
     mk_request "http://b" (completion_body "Capital?" "m2")].
Proof. vm_compute. reflexivity. Qed.

Example chat_url_without_generate :
  map req_url
    (sent (test_prompt_with_chat_model scripted loads_three "http://a/api/chat" [] "m1"
             (start [])).2)
  = ["http://a/api/chat"].
Proof. vm_compute. reflexivity. Qed.

(** * Further properties *)

(** ** The invokers, once more *)

Section InvokerProperties.
Context {world : Type}.
Variable respond : request -> world -> result string * world.
Variable json_loads : string -> result pyval.

Lemma test_prompt_with_chat_model_run (url : string) (messages : list pyval)
    (model : string) (st : interp world) :
  test_prompt_with_chat_model respond json_loads url messages model st =
  let req := mk_request (replace "/generate" "/chat" url) (chat_body messages model) in
  let st' := mk_interp (respond req (net st)).2 (sent st ++ [req]) (stdout st) in
  match (respond req (net st)).1 with
  | Raise e => (Ok (PStr ("Error: " +:+ exn_str e)), st')
  | Ok text =>
      match json_loads text with
      | Raise e => (Ok (PStr ("Error: " +:+ exn_str e)), st')
      | Ok response =>
          match getitem response "message" with
          | Raise e => (Ok (PStr ("Error: " +:+ exn_str e)), st')
          | Ok v => (Ok v, st')
          end
      end
  end.
Proof.
  unfold test_prompt_with_chat_model. cbv zeta. rewrite try_except_Exception.
  unfold_monad. cbv zeta.
  destruct (respond _ (net st)) as [[text|e] w]; simpl; [|reflexivity].
  destruct (json_loads text) as [response|e]; simpl; [|reflexivity].
  destruct (getitem response "message") as [v|e]; reflexivity.
Qed.

(** X1.  The chat invoker never raises: a failed POST, a body that is no
    JSON and a decoded body without a ["message"] field each come back as
    the string ["Error: "] followed by [str(e)]; otherwise the value of
    the ["message"] field comes back, whatever its type. *)
Theorem chat_model_never_raises
    (url : string) (messages : list pyval) (model : string) (st : interp world) :
  let run := test_prompt_with_chat_model respond json_loads url messages model st in
  let answer :=
    respond (mk_request (replace "/generate" "/chat" url) (chat_body messages model))
            (net st) in
  (exists v, run.1 = Ok v)
  /\ (forall e, answer.1 = Raise e -> run.1 = Ok (PStr ("Error: " +:+ exn_str e)))
  /\ (forall text e, answer.1 = Ok text -> json_loads text = Raise e ->
        run.1 = Ok (PStr ("Error: " +:+ exn_str e)))
  /\ (forall text d, answer.1 = Ok text -> json_loads text = Ok (PDict d) ->
        d !! "message" = None -> run.1 = Ok (PStr "Error: 'message'"))
  /\ (forall text d v, answer.1 = Ok text -> json_loads text = Ok (PDict d) ->
        d !! "message" = Some v -> run.1 = Ok v).
Proof.
  cbv zeta. rewrite test_prompt_with_chat_model_run. cbv zeta.
  split; [|split; [|split; [|split]]].
  - destruct (respond _ (net st)).1 as [text|e]; [|eauto].
    destruct (json_loads text) as [response|e]; [|eauto].
    destruct (getitem response "message") as [v|e]; eauto.
  - intros e ->. reflexivity.
  - intros text e -> ->. reflexivity.
  - intros text d -> -> H. simpl. rewrite H. reflexivity.
  - intros text d v -> -> H. simpl. rewrite H. reflexivity.
Qed.

(** X2.  A call of the completion invoker posts once, to the URL it was
    given and with the prompt and the model in the body, whether the call
    succeeds or fails: there is no second attempt, and nothing is
    printed. *)
Theorem completion_posts_once (url prompt model : string) (st : interp world) :
  let run := test_prompt_with_model respond json_loads url prompt model st in
  sent run.2 = sent st ++ [mk_request url (completion_body prompt model)]
  /\ stdout run.2 = stdout st
  /\ net run.2 = (respond (mk_request url (completion_body prompt model)) (net st)).2
  /\ getitem (completion_body prompt model) "prompt" = Ok (PStr prompt)
  /\ getitem (completion_body prompt model) "model" = Ok (PStr model)
  /\ getitem (completion_body prompt model) "stream" = Ok (PBool false).
Proof.
  cbv zeta. destruct (test_prompt_with_model_returns respond json_loads url prompt model st)
    as [v ->].
  repeat split.
Qed.

(** X3.  The result does not tell a failure from an answer: a call that
    failed with [e] and a call whose model answered the text ["Error: "]
    followed by [str(e)] return the same value. *)
Theorem error_string_is_ambiguous
    (url prompt model : string) (st1 st2 : interp world)
    (e : exn) (w1 w2 : world) (text : string) (d : gmap string pyval) :
  let req := mk_request url (completion_body prompt model) in
  respond req (net st1) = (Raise e, w1) ->
  respond req (net st2) = (Ok text, w2) ->
  json_loads text = Ok (PDict d) ->
  d !! "response" = Some (PStr ("Error: " +:+ exn_str e)) ->
  (test_prompt_with_model respond json_loads url prompt model st1).1
  = (test_prompt_with_model respond json_loads url prompt model st2).1.
Proof.
  cbv zeta. intros H1 H2 Hj Hd. rewrite !test_prompt_with_model_run. cbv zeta.
  rewrite H1, H2. simpl. rewrite Hj. simpl. rewrite Hd. reflexivity.
Qed.

(** X4.  Without endpoints, or without models, the fan-out calls no one
    and returns the empty mapping. *)
Theorem fan_out_of_nothing (urls : list string) (prompt : string) (models : list string)
    (st : interp world) :
  test_multiple_models respond json_loads [] prompt models st = (Ok ∅, st)
  /\ test_multiple_models respond json_loads urls prompt [] st = (Ok ∅, st).
Proof.
  rewrite !test_multiple_models_fan_out. split; [reflexivity|].
  now destruct urls.
Qed.

Lemma positional_snd (urls models : list string) :
  (positional urls models).*2 = take (length urls) models.
Proof.
  revert models. induction urls as [|u urls IH]; intros [|m models]; simpl;
    try reflexivity. now rewrite IH.
Qed.

Lemma size_list_to_set_NoDup (l : list string) :
  size (list_to_set l : gset string) <= length l
  /\ (size (list_to_set l : gset string) = length l <-> NoDup l).
Proof.
  induction l as [|x l [IHle IHeq]].
  - rewrite list_to_set_nil, size_empty. split; [reflexivity|].
    split; [constructor | reflexivity].
  - rewrite list_to_set_cons. cbn [length].
    destruct (decide (x ∈ l)) as [Hin|Hin].
    + assert (E : ({[x]} ∪ list_to_set l : gset string) = list_to_set l)
        by (apply subseteq_union_1_L; set_solver).
      rewrite E. split; [lia|]. split; [lia|].
      intros H. apply NoDup_cons in H as [H _]. contradiction.
    + rewrite size_union by set_solver. rewrite size_singleton.
      split; [lia|]. rewrite NoDup_cons. split.
      * intros H. split; [exact Hin|]. apply IHeq. lia.
      * intros [_ H]. apply IHeq in H. lia.
Qed.

(** X5.  The mapping of the fan-out never has more entries than there are
    pairs, and it has one entry for each pair exactly when the models of
    the pairs are all different: a repeated model loses a result. *)
Theorem fan_out_size (urls : list string) (prompt : string) (models : list string)
    (st : interp world) :
  let paired := take (length urls) models in
  exists mapping,
    (test_multiple_models respond json_loads urls prompt models st).1 = Ok mapping
    /\ size mapping <= Nat.min (length urls) (length models)
    /\ (size mapping = Nat.min (length urls) (length models) <-> NoDup paired).
Proof.
  cbv zeta. rewrite test_multiple_models_fan_out.
  destruct (fan_out_returns respond json_loads prompt (positional urls models) ∅ st)
    as (m & st' & -> & Hdom & _).
  exists m. split; [reflexivity|].
  assert (Hsize : size m = size (list_to_set (take (length urls) models) : gset string)).
  { rewrite <- size_dom, Hdom, dom_empty_L, positional_snd.
    f_equal. set_solver. }
  assert (Hlen : length (take (length urls) models)
                 = Nat.min (length urls) (length models)).
  { rewrite length_take. lia. }
  rewrite Hsize, <- Hlen. apply size_list_to_set_NoDup.
Qed.

End InvokerProperties.

(** A body whose ["response"] field reads like a failure. *)
Definition body_error : string :=
  "{" +:+ quoted "response" +:+ ": " +:+ quoted "Error: Cannot connect to host" +:+ "}".

Definition loads_error_body (s : string) : result pyval :=
  if String.eqb s body_error
  then Ok (PDict (dict [("response", PStr "Error: Cannot connect to host")]))
  else Raise (mk_exn JSONDecodeError "Expecting value: line 1 column 1 (char 0)").

Lemma error_string_is_ambiguous_witness :
  (test_prompt_with_model scripted loads_error_body "http://a/api/generate" "Capital?" "m1"
     (start [])).1
  = (test_prompt_with_model scripted loads_error_body "http://a/api/generate" "Capital?" "m1"
       (start [Ok body_error])).1.
Proof.
  apply (error_string_is_ambiguous scripted loads_error_body
           "http://a/api/generate" "Capital?" "m1" (start []) (start [Ok body_error])
           (mk_exn ClientError "Cannot connect to host") [] [] body_error
           (dict [("response", PStr "Error: Cannot connect to host")]));
    vm_compute; reflexivity.
Defined.

(** ** The exact-match evaluator, once more *)

Lemma is_space_lower_char (c : ascii) : is_space (lower_char c) = is_space c.
Proof. destruct c as [[] [] [] [] [] [] [] []]; reflexivity. Qed.

Lemma lower_char_idempotent (c : ascii) : lower_char (lower_char c) = lower_char c.
Proof. destruct c as [[] [] [] [] [] [] [] []]; reflexivity. Qed.

Lemma lower_append (a b : string) : lower (a +:+ b) = lower a +:+ lower b.
Proof. induction a as [|c a IH]; simpl; [reflexivity | now rewrite IH]. Qed.

Lemma lower_idempotent (s : string) : lower (lower s) = lower s.
Proof.
  induction s as [|c s IH]; simpl; [reflexivity|].
  now rewrite lower_char_idempotent, IH.
Qed.

Lemma all_space_lower (s : string) : all_space (lower s) = all_space s.
Proof.
  induction s as [|c s IH]; simpl; [reflexivity|].
  now rewrite is_space_lower_char, IH.
Qed.

Lemma lower_cons_inv (s : string) (c : ascii) (u : string) :
  lower s = String c u -> exists c' u', s = String c' u' /\ c = lower_char c' /\ u = lower u'.
Proof. destruct s as [|c' u']; simpl; [discriminate|]. intros [= <- <-]. eauto. Qed.

Lemma lower_snoc_inv (s u : string) (c : ascii) :
  lower s = u +:+ String c "" ->
  exists u' c', s = u' +:+ String c' "" /\ c = lower_char c'.
Proof.
  revert u. induction s as [|x s IH]; intros u; simpl.
  - destruct u; discriminate.
  - destruct u as [|y u]; simpl.
    + destruct s; [|discriminate]. intros [= <-]. now exists "", x.
    + intros [= <- H]. destruct (IH _ H) as (u' & c' & -> & ->).
      now exists (String x u'), c'.
Qed.

Lemma trimmed_lower (s t : string) : trimmed s t -> trimmed (lower s) (lower t).
Proof.
  intros (l & r & -> & Hl & Hr & Hh & Ht). exists (lower l), (lower r).
  rewrite !lower_append, !all_space_lower. repeat split; try assumption.
  - intros c u E. apply lower_cons_inv in E as (c' & u' & -> & -> & _).
    rewrite is_space_lower_char. now apply (Hh c' u').
  - intros u c E. apply lower_snoc_inv in E as (u' & c' & -> & ->).
    rewrite is_space_lower_char. now apply (Ht u' c').
Qed.

Lemma strip_lower (s : string) : strip (lower s) = lower (strip s).
Proof. symmetry. apply trimmed_strip, trimmed_lower, strip_trimmed. Qed.

Lemma strip_idempotent (s : string) : strip (strip s) = strip s.
Proof.
  symmetry. apply trimmed_strip.
  destruct (strip_trimmed s) as (l & r & _ & _ & _ & Hh & Ht).
  exists "", "". now rewrite append_empty_r.
Qed.

Lemma strip_padded (l s r : string) :
  all_space l = true -> all_space r = true -> strip (l +:+ s +:+ r) = strip s.
Proof.
  intros Hl Hr. symmetry. apply trimmed_strip.
  destruct (strip_trimmed s) as (l' & r' & E & Hl' & Hr' & Hh & Ht).
  exists (l +:+ l'), (r' +:+ r). rewrite !all_space_append, Hl, Hr, Hl', Hr'.
  repeat split; try assumption.
  rewrite E at 1. now rewrite !append_assoc.
Qed.

(** X6.  The evaluator is an equivalence: every output matches itself,
    a match holds in both directions, and two matches chain. *)
Theorem evaluate_test_case_equivalence :
  (forall a, evaluate_test_case a a = true)
  /\ (forall a b, evaluate_test_case a b = evaluate_test_case b a)
  /\ (forall a b c, evaluate_test_case a b = true -> evaluate_test_case b c = true ->
        evaluate_test_case a c = true).
Proof.
  unfold evaluate_test_case. split; [|split].
  - intros a. apply String.eqb_refl.
  - intros a b. apply String.eqb_sym.
  - intros a b c H1 H2. apply String.eqb_eq in H1, H2. apply String.eqb_eq. congruence.
Qed.

(** X7.  The verdict is the same when an output is stripped or put in
    lower case beforehand, and when white space is added around it. *)
Theorem evaluate_test_case_normalised (s t : string) :
  evaluate_test_case (strip s) t = evaluate_test_case s t
  /\ evaluate_test_case (lower s) t = evaluate_test_case s t
  /\ (forall l r, all_space l = true -> all_space r = true ->
        evaluate_test_case (l +:+ s +:+ r) t = evaluate_test_case s t).
Proof.
  unfold evaluate_test_case. split; [|split].
  - now rewrite strip_idempotent.
  - now rewrite strip_lower, lower_idempotent.
  - intros l r Hl Hr. now rewrite strip_padded.
Qed.

(** ** The score extractor, once more *)

Lemma first_number_intro (pre s m r : string) :
  no_digit pre = true -> match_number s = Some (m, r) -> first_number (pre +:+ s) m r.
Proof.
  intros Hpre Hm. destruct (match_number_spec _ _ _ Hm) as (E & Hnum & Hlong).
  exists pre. rewrite <- E. repeat split; assumption.
Qed.

Lemma first_number_prefix (pre w m r : string) :
  no_digit pre = true -> first_number w m r -> first_number (pre +:+ w) m r.
Proof.
  intros Hpre (p & -> & Hp & Hnum & Hlong). exists (pre +:+ p).
  rewrite append_assoc. repeat split; try assumption.
  clear -Hpre Hp. induction pre as [|c pre IH]; simpl in *; [exact Hp|].
  apply andb_prop in Hpre as [-> Hpre]. now apply IH.
Qed.

Section ExtractorProperties.
Context {world : Type}.

(** X8.  Whatever the answer and the marker, the extractor gives a number
    from 0 to 1: a float in that range with nothing printed, or the [0] of
    the failure path with one line printed.  It posts nothing. *)
Theorem extract_judge_score_range (answer split_str : string) (st : interp world) :
  let run := _extract_judge_score answer split_str st in
  net run.2 = net st /\ sent run.2 = sent st
  /\ ((exists f, run = (Ok (PFloat f), st)
         /\ SFleb (lit "0.0") f = true /\ SFleb f (lit "1.0") = true)
      \/ (exists line, run = (Ok (PInt 0),
                              mk_interp (net st) (sent st) (stdout st ++ [line])))).
Proof.
  cbv zeta. destruct (raw_score answer split_str) as [r|e] eqn:H.
  - rewrite (extract_ok _ _ _ st H). repeat split. left. exists (rescale r).
    split; [reflexivity|]. pose proof (raw_score_nonneg _ _ _ H) as Hr. unfold rescale.
    destruct (SFeqb r (lit "0.0")) eqn:Hz.
    + rewrite (nonneg_eq_zero r Hr Hz). split; vm_compute; reflexivity.
    + apply py_max_min_bounds, fdiv_four_nonneg, Hr.
  - rewrite (extract_error _ _ _ st H). repeat split. right. eauto.
Qed.

(** X9.  With the empty string as the marker the extractor finds nothing,
    whatever the answer holds: [split] refuses the empty separator, the
    message is printed and the result is [0]. *)
Theorem extract_with_empty_marker (answer : string) (st : interp world) :
  _extract_judge_score answer "" st
  = (Ok (PInt 0), mk_interp (net st) (sent st) (stdout st ++ ["empty separator"])).
Proof.
  apply (extract_error _ _ (mk_exn ValueError "empty separator")).
  unfold raw_score. now rewrite rating_window_empty_marker.
Qed.

(** X10.  What stands before the first marker does not count: two answers
    that have the same text after their first marker get the same score,
    whatever numbers stand before it. *)
Theorem text_before_marker_is_ignored
    (answer answer' split_str b b' a : string) (st : interp world) :
  split_str <> "" ->
  first_at split_str answer b a ->
  first_at split_str answer' b' a ->
  _extract_judge_score answer split_str st = _extract_judge_score answer' split_str st.
Proof.
  intros N F F'. apply first_at_partition in F, F'.
  assert (E : raw_score answer split_str = raw_score answer' split_str).
  { unfold raw_score.
    now rewrite (rating_window_present _ _ _ _ N F), (rating_window_present _ _ _ _ N F'). }
  unfold _extract_judge_score. now rewrite E.
Qed.

(** ** The comparator *)

Lemma extract_never_raises (answer split_str : string) (st : interp world) :
  exists v st', _extract_judge_score answer split_str st = (Ok v, st').
Proof.
  destruct (raw_score answer split_str) as [r|e] eqn:H.
  - rewrite (extract_ok _ _ _ st H). eauto.
  - rewrite (extract_error _ _ _ st H). eauto.
Qed.

Lemma compare_run
    (llm_output expected_output original_instruction : string)
    (test_prompt_func : string -> string -> string -> M world string)
    (url model : string) (st : interp world) :
  compare_strings_with_llm_judge llm_output expected_output original_instruction
    test_prompt_func url model st
  = match test_prompt_func url
            (judge_prompt original_instruction llm_output expected_output) model st with
    | (Ok reply, st1) => _extract_judge_score reply default_split_str st1
    | (Raise e, st1) =>
        if isinstance e ValueError then (Ok (PFloat (lit "0.0")), st1) else (Raise e, st1)
    end.
Proof.
  unfold compare_strings_with_llm_judge. cbv zeta. unfold try_except.
  rewrite bind_run.
  destruct (test_prompt_func url _ model st) as [[reply|e] st1]; [|reflexivity].
  rewrite bind_run.
  destruct (extract_never_raises reply default_split_str st1) as (v & st' & ->).
  reflexivity.
Qed.

(** X11.  The comparator calls the invocation function once, with the
    judge prompt, and when that returns a reply its result is what the
    extractor makes of the reply with the default marker: the extractor
    fails to [0] on its own, so the outer [except] plays no part. *)
Theorem compare_is_extract_of_reply
    (llm_output expected_output original_instruction : string)
    (test_prompt_func : string -> string -> string -> M world string)
    (url model reply : string) (st st1 : interp world) :
  test_prompt_func url (judge_prompt original_instruction llm_output expected_output)
    model st = (Ok reply, st1) ->
  compare_strings_with_llm_judge llm_output expected_output original_instruction
    test_prompt_func url model st
  = _extract_judge_score reply "Total rating:" st1.
Proof. intros H. now rewrite compare_run, H. Qed.

(** X12.  When the invocation function raises, the comparator returns
    [0.0] for a [ValueError] (or a subclass of it, such as a JSON decoding
    error) and lets every other exception through to its caller. *)
Theorem compare_on_exception
    (llm_output expected_output original_instruction : string)
    (test_prompt_func : string -> string -> string -> M world string)
    (url model : string) (e : exn) (st st1 : interp world) :
  test_prompt_func url (judge_prompt original_instruction llm_output expected_output)
    model st = (Raise e, st1) ->
  compare_strings_with_llm_judge llm_output expected_output original_instruction
    test_prompt_func url model st
  = if isinstance e ValueError then (Ok (PFloat (lit "0.0")), st1) else (Raise e, st1).
Proof. intros H. now rewrite compare_run, H. Qed.

(** X13.  The comparator does not look for the ["Error: "] prefix of the
    invokers: an error string without the marker is scored like a judge
    answer, by the first number of the error message. *)
Theorem compare_scores_error_strings
    (llm_output expected_output original_instruction : string)
    (test_prompt_func : string -> string -> string -> M world string)
    (url model msg m r : string) (st st1 : interp world) :
  test_prompt_func url (judge_prompt original_instruction llm_output expected_output)
    model st = (Ok ("Error: " +:+ msg), st1) ->
  contains "Total rating:" ("Error: " +:+ msg) = false ->
  first_number msg m r ->
  exists x, py_float m = Ok x
    /\ compare_strings_with_llm_judge llm_output expected_output original_instruction
         test_prompt_func url model st
       = (Ok (PFloat (rescale x)), st1).
Proof.
  intros H C F. rewrite compare_run, H.
  destruct F as (pre & E & Hpre & Hnum & Hlong).
  destruct (py_float_number m Hnum) as [x Hx]. exists x. split; [exact Hx|].
  apply extract_ok. unfold default_split_str.
  rewrite (raw_score_window _ _ _ (rating_window_absent _ _ C)).
  assert (F : first_number ("Error: " +:+ msg) m r).
  { apply first_number_prefix; [reflexivity|]. exists pre. repeat split; assumption. }
  now rewrite (findall_first _ _ _ F).
Qed.

End ExtractorProperties.

Lemma text_before_marker_is_ignored_witness :
  _extract_judge_score "I would give 2. Total rating: 4" "Total rating:" (mk_interp tt [] [])
  = _extract_judge_score "Total rating: 4" "Total rating:" (mk_interp tt [] []).
Proof.
  apply (text_before_marker_is_ignored _ _ "Total rating:" "I would give 2. " "" " 4");
    [discriminate | apply partition_first; vm_compute; reflexivity
     | apply partition_first; vm_compute; reflexivity].
Defined.

(** A judge that cannot be reached, as the completion invoker reports it. *)
Definition unreachable_judge : string -> string -> string -> M unit string :=
  fun _ _ _ => ret "Error: Cannot connect to host localhost:11434".

(** A judge whose call raises. *)
Definition raising_judge (e : exn) : string -> string -> string -> M unit string :=
  fun _ _ _ => lift (Raise e).

Lemma compare_is_extract_of_reply_witness :
  compare_strings_with_llm_judge "Lyon" "Paris" "Name the capital of France."
    constant_judge "http://localhost:11434/api/generate" "judge" (mk_interp tt [] [])
  = _extract_judge_score "Evaluation: fine
Total rating: 3" "Total rating:" (mk_interp tt [] []).
Proof.
  apply (compare_is_extract_of_reply "Lyon" "Paris" "Name the capital of France."
           constant_judge). reflexivity.
Defined.

Lemma compare_on_exception_witness :
  compare_strings_with_llm_judge "Lyon" "Paris" "Name the capital of France."
    (raising_judge (mk_exn ClientError "Cannot connect to host"))
    "http://localhost:11434/api/generate" "judge" (mk_interp tt [] [])
  = (Raise (mk_exn ClientError "Cannot connect to host"), mk_interp tt [] []).
Proof.
  exact (compare_on_exception "Lyon" "Paris" "Name the capital of France."
           (raising_judge (mk_exn ClientError "Cannot connect to host"))
           "http://localhost:11434/api/generate" "judge"
           (mk_exn ClientError "Cannot connect to host")
           (mk_interp tt [] []) (mk_interp tt [] []) eq_refl).
Defined.

Lemma compare_scores_error_strings_witness :
  exists x, py_float "11434" = Ok x
    /\ compare_strings_with_llm_judge "Lyon" "Paris" "Name the capital of France."
         unreachable_judge "http://localhost:11434/api/generate" "judge"
         (mk_interp tt [] [])
       = (Ok (PFloat (rescale x)), mk_interp tt [] []).
Proof.
  apply (compare_scores_error_strings "Lyon" "Paris" "Name the capital of France."
           unreachable_judge "http://localhost:11434/api/generate" "judge"
           "Cannot connect to host localhost:11434" "11434" "").
  - reflexivity.
  - vm_compute. reflexivity.
  - apply (first_number_intro "Cannot connect to host localhost:" "11434" "11434" "");
      vm_compute; reflexivity.
Defined.

Example compare_on_decoding_error :
  compare_strings_with_llm_judge "Lyon" "Paris" "Name the capital of France."
    (raising_judge (mk_exn JSONDecodeError "Expecting value: line 1 column 1 (char 0)"))
    "http://localhost:11434/api/generate" "judge" (mk_interp tt [] [])
  = (Ok (PFloat (lit "0.0")), mk_interp tt [] []).
Proof. vm_compute. reflexivity. Qed.

(** ** The variable validator, once more *)

Lemma validate_loop_agree (d d' : gmap string pyval) (vars : list string) :
  (forall name, name ∈ vars -> d !! name = d' !! name) ->
  validate_loop (PDict d) vars = validate_loop (PDict d') vars.
Proof.
  induction vars as [|x vars IH]; intros H; [reflexivity|].
  cbn [validate_loop]. rewrite !missing_or_empty_dict. unfold satisfied_b.
  rewrite (H x) by (apply elem_of_cons; now left).
  rewrite IH; [reflexivity|]. intros name Hin. apply H, elem_of_cons. now right.
Qed.

Definition is_str (v : pyval) : bool :=
  match v with
  | PStr _ => true
  | _ => false
  end.

Definition is_dict (v : pyval) : bool :=
  match v with
  | PDict _ => true
  | _ => false
  end.

Section ValidatorProperties.
Variable json_loads : string -> result pyval.
Variable jinja_parse : string -> result node.
Variable set_order : gset string -> list string.

(** X14.  The validator recovers from nothing.  A text that is no JSON
    raises the decoding error, also when the template is malformed too,
    since the values are decoded first; a malformed template raises the
    parser's error. *)
Theorem validator_errors_propagate (values : pyval) (template_str : string) :
  let validate := validate_variables_with_template json_loads jinja_parse set_order in
  (forall s e, json_loads s = Raise e -> validate (PStr s) template_str = Raise e)
  /\ (forall s v e, json_loads s = Ok v -> jinja_parse template_str = Raise e ->
        validate (PStr s) template_str = Raise e)
  /\ (forall e, is_str values = false -> jinja_parse template_str = Raise e ->
        validate values template_str = Raise e).
Proof.
  cbv zeta. unfold validate_variables_with_template, get_template_variables.
  split; [|split].
  - intros s e ->. reflexivity.
  - intros s v e -> ->. reflexivity.
  - intros e Hs ->. now destruct values.
Qed.

Hypothesis set_order_elements : forall s x, x ∈ set_order s <-> x ∈ s.

Lemma set_order_occurs (ast : node) (name : string) :
  name ∈ set_order (visit_node ast ∅) <-> occurs name ast.
Proof. rewrite set_order_elements, visit_node_spec. set_solver. Qed.

(** X15.  Values that are no mapping (a list, a number, [None]) pass a
    template that names no variable, since the loop never looks at them,
    and raise an [AttributeError] on a template that names one. *)
Theorem validator_without_mapping (values : pyval) (template_str : string) (ast : node) :
  jinja_parse template_str = Ok ast ->
  is_str values = false ->
  let run := validate_variables_with_template json_loads jinja_parse set_order
               values template_str in
  ((forall name, ~ occurs name ast) -> run = Ok (true, ""))
  /\ (forall name, occurs name ast -> is_dict values = false ->
        run = Raise (mk_exn AttributeError
                       ("'" +:+ type_name values +:+ "' object has no attribute 'keys'"))).
Proof.
  intros Hparse Hs. cbv zeta.
  assert (Hrun : validate_variables_with_template json_loads jinja_parse set_order
                   values template_str
                 = validate_loop values (set_order (visit_node ast ∅))).
  { unfold validate_variables_with_template, get_template_variables.
    rewrite Hparse. now destruct values. }
  rewrite Hrun. split.
  - intros Hnone. destruct (set_order (visit_node ast ∅)) as [|x l] eqn:E; [reflexivity|].
    exfalso. apply (Hnone x), set_order_occurs. rewrite E. apply elem_of_cons. now left.
  - intros name Ho Hd. apply set_order_occurs in Ho.
    destruct (set_order (visit_node ast ∅)) as [|x l]; [now apply elem_of_nil in Ho|].
    now destruct values.
Qed.

(** X16.  The verdict depends on the mapping only through the variables
    the template names: two mappings that agree on those get the same
    answer, so keys the template does not name are ignored. *)
Theorem validator_reads_named_variables_only
    (d d' : gmap string pyval) (template_str : string) (ast : node) :
  jinja_parse template_str = Ok ast ->
  (forall name, occurs name ast -> d !! name = d' !! name) ->
  validate_variables_with_template json_loads jinja_parse set_order (PDict d) template_str
  = validate_variables_with_template json_loads jinja_parse set_order (PDict d') template_str.
Proof.
  intros Hparse Hagree.
  unfold validate_variables_with_template, get_template_variables.
  rewrite Hparse. cbn [rbind]. apply validate_loop_agree.
  intros name Hin. apply Hagree, set_order_occurs, Hin.
Qed.

End ValidatorProperties.

Lemma elements_order (s : gset string) (x : string) : x ∈ elements s <-> x ∈ s.
Proof. apply elem_of_elements. Qed.

Lemma validator_without_mapping_witness :
  validate_variables_with_template (fun _ => Ok PNone) parse_greeting elements
    (PList []) greeting
  = Raise (mk_exn AttributeError "'list' object has no attribute 'keys'").
Proof.
  exact (proj2 (validator_without_mapping (fun _ => Ok PNone) parse_greeting elements
                  elements_order (PList []) greeting greeting_ast eq_refl eq_refl)
               "name"
               (occurs_child "name" _ _ ltac:(apply elem_of_cons; now left)
                  (occurs_child "name" _ (Name "name")
                     ltac:(apply elem_of_cons; right; apply elem_of_cons; now left)
                     (occurs_here "name")))
               eq_refl).
Defined.

Lemma validator_reads_named_variables_only_witness :
  validate_variables_with_template (fun _ => Ok PNone) parse_greeting elements
    (PDict (dict [("name", PStr "Ada"); ("city", PStr "Paris"); ("age", PNone)])) greeting
  = validate_variables_with_template (fun _ => Ok PNone) parse_greeting elements
      (PDict (dict [("name", PStr "Ada"); ("city", PStr "Paris")])) greeting.
Proof.
  apply (validator_reads_named_variables_only (fun _ => Ok PNone) parse_greeting elements
           elements_order _ _ greeting greeting_ast eq_refl).
  intros name H. destruct (occurs_greeting name H) as [-> | ->]; vm_compute; reflexivity.
Defined.

(** ** The chat endpoint *)

Lemma startswith_long (p x y y' : string) :
  (String.length p <= String.length x)%nat ->
  startswith p (x +:+ y) = startswith p (x +:+ y').
Proof.
  revert x. induction p as [|c p IH]; intros [|d x] H; simpl in *; try reflexivity; try lia.
  rewrite (IH x) by lia. reflexivity.
Qed.

Lemma startswith_short (p x y : string) :
  (String.length x < String.length p)%nat ->
  startswith p (x +:+ y) = true -> startswith (drop (String.length x) p) y = true.
Proof.
  revert x. induction p as [|c p IH]; intros [|d x] H; simpl in *; try lia; try easy.
  intros E. apply andb_prop in E as [_ E]. apply IH; [lia | exact E].
Qed.

Lemma contains_append_false (old x y : string) :
  (forall x1 x2, x = x1 +:+ x2 -> x2 <> "" -> startswith old (x2 +:+ y) = false) ->
  contains old y = false -> contains old (x +:+ y) = false.
Proof.
  induction x as [|c x IH]; intros Hx Hy; [exact Hy|].
  pose proof (Hx "" (String c x) eq_refl ltac:(discriminate)) as H0.
  change (String c x +:+ y) with (String c (x +:+ y)) in *. cbn [contains].
  rewrite H0. cbn [orb].
  apply IH; [|exact Hy]. intros x1 x2 -> N. now apply (Hx (String c x1) x2).
Qed.

Lemma generate_tail_no_slash (k : nat) (z : string) :
  (1 <= k < 9)%nat -> startswith (drop k "/generate") (String "/" z) = false.
Proof.
  intros H. do 9 (destruct k as [|k]; [try lia; reflexivity|]). lia.
Qed.

Lemma first_at_suffix (old s b a x1 x2 : string) :
  first_at old s b a -> b = x1 +:+ x2 -> x2 <> "" ->
  startswith old (x2 +:+ old +:+ a) = false.
Proof.
  intros [-> Hmin] -> N. destruct (startswith old _) eqn:E; [|reflexivity].
  apply startswith_inv in E. exfalso.
  specialize (Hmin x1 (drop (String.length old) (x2 +:+ old +:+ a))).
  rewrite <- E, !append_assoc in Hmin. specialize (Hmin eq_refl).
  rewrite length_append in Hmin. destruct x2; [easy | simpl in Hmin; lia].
Qed.

Lemma replace_generate_free (s : string) :
  contains "/generate" (replace "/generate" "/chat" s) = false.
Proof.
  remember (String.length s) as n eqn:Hn. revert s Hn.
  induction n as [n IH] using lt_wf_ind. intros s ->.
  rewrite replace_unfold by discriminate.
  destruct (partition "/generate" s) as [[b a]|] eqn:P; [|now apply partition_none].
  assert (Ha : contains "/generate" (replace "/generate" "/chat" a) = false).
  { eapply IH; [|reflexivity].
    apply (partition_shorter "/generate" s b a); [discriminate | exact P]. }
  apply partition_first in P.
  apply contains_append_false.
  - intros x1 x2 E N.
    pose proof (first_at_suffix _ _ _ _ _ _ P E N) as Hs.
    destruct (Nat.le_gt_cases (String.length "/generate") (String.length x2)) as [L|L].
    + now rewrite (startswith_long _ x2 _ ("/generate" +:+ a) L).
    + destruct (startswith "/generate"
                  (x2 +:+ "/chat" +:+ replace "/generate" "/chat" a)) eqn:E2;
        [|reflexivity].
      apply startswith_short in E2; [|exact L].
      assert (Hc : startswith (drop (String.length x2) "/generate")
                     ("/chat" +:+ replace "/generate" "/chat" a) = false).
      { apply (generate_tail_no_slash (String.length x2)
                 ("chat" +:+ replace "/generate" "/chat" a)).
        destruct x2; [easy | simpl in *; lia]. }
      congruence.
  - cbn. exact Ha.
Qed.

Section ChatEndpoint.
Context {world : Type}.
Variable respond : request -> world -> result string * world.
Variable json_loads : string -> result pyval.

(** X17.  The URL the chat invoker posts to never contains ["/generate"],
    and deriving the chat URL from a chat URL changes nothing: a URL that
    went through the invoker once can go through it again. *)
Theorem chat_url_has_no_generate
    (url : string) (messages : list pyval) (model : string) (st : interp world) :
  let chat_url := replace "/generate" "/chat" url in
  Forall (fun req => contains "/generate" (req_url req) = false)
    (skipn (length (sent st))
       (sent (test_prompt_with_chat_model respond json_loads url messages model st).2))
  /\ contains "/generate" chat_url = false
  /\ replace "/generate" "/chat" chat_url = chat_url.
Proof.
  cbv zeta. rewrite test_prompt_with_chat_model_run. cbv zeta.
  pose proof (replace_generate_free url) as H.
  split; [|split; [exact H | now apply replace_absent]].
  destruct (respond _ (net st)).1 as [text|e];
    [destruct (json_loads text) as [response|e];
     [destruct (getitem response "message") as [v|e]|]|];
    cbn [snd sent]; rewrite drop_app_length; repeat constructor; exact H.
Qed.

End ChatEndpoint.

(** ** What a score of zero and an echoed prompt mean *)

Lemma append_prefix (u v x y : string) :
  u +:+ v = x +:+ y -> (String.length u <= String.length x)%nat ->
  exists t, x = u +:+ t.
Proof.
  revert x. induction u as [|c u IH]; intros x E L; [now exists x|].
  destruct x as [|d x]; [simpl in L; lia|].
  simpl in E, L. injection E as -> E.
  destruct (IH x E ltac:(lia)) as [t ->]. now exists t.
Qed.

Lemma first_at_append (sep x b a y : string) :
  first_at sep x b a -> first_at sep (x +:+ y) b (a +:+ y).
Proof.
  intros [-> Hmin]. split; [now rewrite !append_assoc|].
  intros b' a' E.
  destruct (Nat.le_gt_cases (String.length b) (String.length b')) as [L|L]; [exact L|].
  rewrite <- (append_assoc b' sep a') in E.
  destruct (append_prefix (b' +:+ sep) a' (b +:+ sep +:+ a) y) as [t Ht].
  - now rewrite E.
  - rewrite !length_append. lia.
  - rewrite append_assoc in Ht. apply (Hmin b' t Ht).
Qed.

Lemma partition_append (sep x b a y : string) :
  partition sep x = Some (b, a) -> partition sep (x +:+ y) = Some (b, a +:+ y).
Proof. intros P. now apply first_at_partition, first_at_append, partition_first. Qed.

Section Scores.
Context {world : Type}.

(** X18.  A score of zero does not tell a rating of 0 from a failed
    extraction: the two results are equal as numbers.  They differ in
    their type and in the line the failure prints. *)
Theorem zero_rating_equals_failure
    (answer split_str answer' split_str' : string) (r : spec_float) (e : exn)
    (st st' : interp world) :
  raw_score answer split_str = Ok r ->
  SFeqb r (lit "0.0") = true ->
  raw_score answer' split_str' = Raise e ->
  exists v v',
    (_extract_judge_score answer split_str st).1 = Ok v
    /\ (_extract_judge_score answer' split_str' st').1 = Ok v'
    /\ num_eq v v' = true
    /\ v = PFloat (lit "0.0") /\ v' = PInt 0.
Proof.
  intros H Hz H'. rewrite (extract_ok _ _ _ st H), (extract_error _ _ _ st' H').
  exists (PFloat (lit "0.0")), (PInt 0). unfold rescale. rewrite Hz.
  rewrite (nonneg_eq_zero r (raw_score_nonneg _ _ _ H) Hz). repeat split.
Qed.

(** X19.  The judge prompt holds the marker twice, in its instructions
    on the form of the answer.  A reply that starts by repeating the
    prompt is therefore read between these two places, where the first
    number is the 1 of "between 1 and 4": such a reply scores [0.25]
    whatever the three texts are and whatever follows the prompt. *)
Theorem echoed_prompt_scores_a_quarter
    (original_instruction llm_output expected_output rest : string) (st : interp world) :
  _extract_judge_score
    (judge_prompt original_instruction llm_output expected_output +:+ rest)
    "Total rating:" st
  = (Ok (PFloat (lit "0.25")), st).
Proof.
  unfold judge_prompt. rewrite append_assoc.
  match goal with
  | |- context [_extract_judge_score (?A +:+ ?Y) _ _] =>
      set (head := A); set (tail := Y)
  end.
  destruct (partition "Total rating:" head) as [[b a]|] eqn:P1;
    [|vm_compute in P1; discriminate].
  destruct (partition "Total rating:" a) as [[w a2]|] eqn:P2;
    [|vm_compute in P1; injection P1 as <- <-; vm_compute in P2; discriminate].
  assert (W : rating_window (head +:+ tail) "Total rating:" = Ok w).
  { rewrite (rating_window_present _ _ b (a +:+ tail));
      [| discriminate | now apply partition_append].
    now rewrite (partition_append _ _ _ _ tail P2). }
  assert (Hw : findall w = ["1"; "4"]).
  { vm_compute in P1. injection P1 as <- <-. vm_compute in P2. injection P2 as <- _.
    vm_compute. reflexivity. }
  rewrite (extract_ok _ _ (lit "1")).
  - apply (f_equal (fun f => (Ok (PFloat f), st))). vm_compute. reflexivity.
  - rewrite (raw_score_window _ _ _ W), Hw. vm_compute. reflexivity.
Qed.

End Scores.

Lemma zero_rating_equals_failure_witness :
  exists v v',
    (_extract_judge_score "Total rating: 0" "Total rating:" (mk_interp tt [] [])).1 = Ok v
    /\ (_extract_judge_score "no rating given" "Total rating:" (mk_interp tt [] [])).1
       = Ok v'
    /\ num_eq v v' = true
    /\ v = PFloat (lit "0.0") /\ v' = PInt 0.
Proof.
  apply (zero_rating_equals_failure "Total rating: 0" "Total rating:"
           "no rating given" "Total rating:" (lit "0")
           (mk_exn IndexError "list index out of range"));
    vm_compute; reflexivity.
Defined.
